(** * Shader minifier: a shallow embedding of [scripts/shader_minifier.py]

    The script's only algorithmic content is [format_shader], a single
    forward pass over the lines of a GLSL source.  Python strings are
    sequences of Unicode code points, so a character is modelled by its
    code point and a string by a list of code points.  The string
    built-ins the function calls ([splitlines], [find], slicing, [strip],
    [lstrip], [rstrip], [startswith], [split], [join]) are modelled after
    the Python language reference. *)

From Stdlib Require Import Ascii String.
From Stdlib Require Import List NArith Arith Bool Lia.
Import ListNotations.

(** ** Characters and strings *)

Definition char := N.
Definition str := list char.

(** ASCII literals, for readable examples. *)
Definition lit (s : string) : str :=
  map N_of_ascii (list_ascii_of_string s).

Definition LF : char := 10%N.
Definition CR : char := 13%N.
Definition SLASH : char := 47%N.
Definition STAR : char := 42%N.
Definition HASH : char := 35%N.

(** The comment markers of the source. *)
Definition open_marker : str := [SLASH; STAR].     (* "/*" *)
Definition close_marker : str := [STAR; SLASH].    (* "*/" *)
Definition line_marker : str := [SLASH; SLASH].    (* "//" *)

(** [str.isspace] on one code point: the characters removed by [strip],
    [lstrip] and [rstrip] when called without argument. *)
Definition is_space (c : char) : bool :=
  ((9 <=? c) && (c <=? 13) || (28 <=? c) && (c <=? 32)
   || (c =? 133) || (c =? 160) || (c =? 5760)
   || (8192 <=? c) && (c <=? 8202)
   || (c =? 8232) || (c =? 8233) || (c =? 8239) || (c =? 8287)
   || (c =? 12288))%N.

(** The line boundaries of [str.splitlines]: LF, CR, VT, FF, FS, GS, RS,
    NEL, LINE SEPARATOR and PARAGRAPH SEPARATOR (CR LF counts once). *)
Definition is_linebreak (c : char) : bool :=
  ((10 <=? c) && (c <=? 13) || (28 <=? c) && (c <=? 30)
   || (c =? 133) || (c =? 8232) || (c =? 8233))%N.

(** ** String built-ins *)

(** [s.splitlines()]: the lines of [s] without their terminators; a final
    terminator does not open an empty last line. *)
Fixpoint splitlines (s : str) : list str :=
  match s with
  | [] => []
  | c :: t =>
      if is_linebreak c then
        if (c =? CR)%N then
          match t with
          | d :: t' => if (d =? LF)%N then [] :: splitlines t'
                       else [] :: splitlines t
          | [] => [] :: splitlines t
          end
        else [] :: splitlines t
      else
        match splitlines t with
        | [] => [[c]]
        | l :: ls => (c :: l) :: ls
        end
  end.

(** [s.startswith(p)]. *)
Fixpoint startswith (p s : str) : bool :=
  match p, s with
  | [], _ => true
  | _ :: _, [] => false
  | a :: p', b :: s' => (a =? b)%N && startswith p' s'
  end.

(** [s.find(sub)]: the lowest index at which [sub] occurs; Python's [-1]
    is [None]. *)
Fixpoint find (sub s : str) : option nat :=
  if startswith sub s then Some 0
  else match s with
       | [] => None
       | _ :: t => option_map S (find sub t)
       end.

(** [s.find(sub, start)]. *)
Definition find_from (sub s : str) (start : nat) : option nat :=
  option_map (fun i => start + i) (find sub (skipn start s)).

(** [s.lstrip()], [s.rstrip()], [s.strip()]. *)
Fixpoint lstrip (s : str) : str :=
  match s with
  | [] => []
  | c :: t => if is_space c then lstrip t else s
  end.

Fixpoint rstrip (s : str) : str :=
  match s with
  | [] => []
  | c :: t =>
      match rstrip t with
      | [] => if is_space c then [] else [c]
      | r => c :: r
      end
  end.

Definition strip (s : str) : str := rstrip (lstrip s).

(** [s.split(sep)] for a non-empty [sep]: the pieces between the
    non-overlapping occurrences of [sep], scanned from the left.  [skip]
    counts the characters of a separator still to be passed over. *)
Fixpoint split_go (sep : str) (skip : nat) (s : str) : list str :=
  match s with
  | [] => [[]]
  | c :: t =>
      match skip with
      | S k => split_go sep k t
      | O =>
          if startswith sep s then [] :: split_go sep (length sep - 1) t
          else match split_go sep 0 t with
               | [] => [[c]]
               | p :: ps => (c :: p) :: ps
               end
      end
  end.

(** [split] raises [ValueError] on an empty separator. *)
Definition split (sep s : str) : option (list str) :=
  match sep with
  | [] => None
  | _ => Some (split_go sep 0 s)
  end.

(** [sep.join(ls)]. *)
Fixpoint join (sep : str) (ls : list str) : str :=
  match ls with
  | [] => []
  | [l] => l
  | l :: ls' => l ++ sep ++ join sep ls'
  end.

(** ** The minifier *)

(** The three local variables of [format_shader]. *)
Record state := mkState {
  output_lines : list str;
  buffer_line : str;
  in_multiline_comment : bool
}.

Definition init : state := mkState [] [] false.

(** Lines 37-45: inside a block comment, resume after the first end
    marker, or skip the line ([None] is the [continue]). *)
Definition leave_comment (inside : bool) (line : str) : option str :=
  if inside then
    match find close_marker line with
    | Some e => Some (skipn (e + 2) line)
    | None => None
    end
  else Some line.

(** Lines 48-57: one detection of a block-comment start per line.  The
    result is the line without the comment text and the new flag. *)
Definition enter_comment (line : str) : str * bool :=
  match find open_marker line with
  | Some s =>
      match find_from close_marker line (s + 2) with
      | Some e => (firstn s line ++ skipn (e + 2) line, false)
      | None => (firstn s line, true)
      end
  | None => (line, false)
  end.

(** Line 63: [formatted_line.split("//")[0].rstrip()]. *)
Definition code_of (formatted_line : str) : str :=
  rstrip (hd [] (split_go line_marker 0 formatted_line)).

(** Lines 65-73: a directive flushes the buffer and stands alone, other
    code is appended to the buffer. *)
Definition place (out : list str) (buf : str) (code_line : str)
  : list str * str :=
  if startswith [HASH] code_line then
    match buf with
    | [] => (out ++ [code_line], [])
    | _ => ((out ++ [buf]) ++ [code_line], [])
    end
  else (out, buf ++ code_line).

(** Lines 59-73 on a line whose block comments have been handled. *)
Definition emit (out : list str) (buf : str) (line : str)
  : list str * str :=
  match strip line with
  | [] => (out, buf)
  | _ =>
      let formatted_line := lstrip line in
      if startswith line_marker formatted_line then (out, buf)
      else place out buf (code_of formatted_line)
  end.

(** The body of the [for] loop. *)
Definition step (st : state) (line : str) : state :=
  match leave_comment (in_multiline_comment st) line with
  | None => st
  | Some line1 =>
      let (line2, inside) := enter_comment line1 in
      let (out, buf) := emit (output_lines st) (buffer_line st) line2 in
      mkState out buf inside
  end.

Definition run (st : state) (ls : list str) : state := fold_left step ls st.

(** Lines 76-77: the last flush. *)
Definition finish (st : state) : list str :=
  match buffer_line st with
  | [] => output_lines st
  | b => output_lines st ++ [b]
  end.

(** The output lines of a sequence of input lines. *)
Definition format_lines (ls : list str) : list str := finish (run init ls).

Definition format_shader (input_string : str) : str :=
  join [LF] (format_lines (splitlines input_string)).

(** ** The same pass with Python's exceptions made explicit

    The only operations of the loop that can raise are [split] (on an
    empty separator) and the index [[0]] into its result; slices, [find]
    and the strip family are total.  [None] stands for a raised
    exception. *)

Definition code_of_exc (formatted_line : str) : option str :=
  match split line_marker formatted_line with
  | None => None
  | Some parts =>
      match nth_error parts 0 with
      | None => None
      | Some p => Some (rstrip p)
      end
  end.

Definition emit_exc (out : list str) (buf : str) (line : str)
  : option (list str * str) :=
  match strip line with
  | [] => Some (out, buf)
  | _ =>
      let formatted_line := lstrip line in
      if startswith line_marker formatted_line then Some (out, buf)
      else match code_of_exc formatted_line with
           | None => None
           | Some code_line => Some (place out buf code_line)
           end
  end.

Definition step_exc (st : state) (line : str) : option state :=
  match leave_comment (in_multiline_comment st) line with
  | None => Some st
  | Some line1 =>
      let (line2, inside) := enter_comment line1 in
      match emit_exc (output_lines st) (buffer_line st) line2 with
      | None => None
      | Some (out, buf) => Some (mkState out buf inside)
      end
  end.

Fixpoint run_exc (st : state) (ls : list str) : option state :=
  match ls with
  | [] => Some st
  | l :: ls' =>
      match step_exc st l with
      | None => None
      | Some st' => run_exc st' ls'
      end
  end.

Definition format_shader_exc (input_string : str) : option str :=
  match run_exc init (splitlines input_string) with
  | None => None
  | Some st => Some (join [LF] (finish st))
  end.

(** ** The scanner and the placer, separately

    [scan] is what one iteration computes up to line 63: the code line
    that reaches the directive test, if any, and the new flag. *)

Definition scan (inside : bool) (line : str) : option str * bool :=
  match leave_comment inside line with
  | None => (None, inside)
  | Some line1 =>
      let (line2, inside') := enter_comment line1 in
      (match strip line2 with
       | [] => None
       | _ => if startswith line_marker (lstrip line2) then None
              else Some (code_of (lstrip line2))
       end, inside')
  end.

(** The code lines of a sequence of input lines, in order. *)
Fixpoint code_lines (inside : bool) (ls : list str) : list str :=
  match ls with
  | [] => []
  | l :: ls' =>
      match scan inside l with
      | (Some c, inside') => c :: code_lines inside' ls'
      | (None, inside') => code_lines inside' ls'
      end
  end.

(** The flag after a sequence of input lines. *)
Fixpoint flag_after (inside : bool) (ls : list str) : bool :=
  match ls with
  | [] => inside
  | l :: ls' => flag_after (snd (scan inside l)) ls'
  end.

Definition is_directive (l : str) : bool := startswith [HASH] l.

(** Two-line inputs for the examples. *)
Definition nl (a b : str) : str := a ++ LF :: b.

(** [cut sep s]: [s] truncated at the first occurrence of [sep]. *)
Definition cut (sep s : str) : str :=
  match find sep s with
  | Some k => firstn k s
  | None => s
  end.

(** A string all of whose characters are whitespace. *)
Definition blank (s : str) : Prop := Forall (fun c => is_space c = true) s.

(** A string without line boundaries, as every element of [splitlines]. *)
Definition one_line (s : str) : Prop :=
  Forall (fun c => is_linebreak c = false) s.

(** The position in [line] of a block-comment start that lines 48-57
    leave open: the start marker found by [find] in the text the scanner
    looks at (the whole line, or what follows the end marker of a comment
    begun on an earlier line), with no end marker after it on the line. *)
Definition unterminated_at (inside : bool) (line : str) : option nat :=
  match leave_comment inside line with
  | None => None
  | Some line1 =>
      match find open_marker line1 with
      | Some i =>
          match find_from close_marker line1 (i + 2) with
          | None => Some (length line - length line1 + i)
          | Some _ => None
          end
      | None => None
      end
  end.

(** ** Lines that hold only a comment *)

(** A line whose first non-blank text is [//]. *)
Definition line_comment_line (l : str) : Prop :=
  startswith line_marker (lstrip l) = true.

(** A line made of one block comment, [/* body */], between blanks; the
    comment ends at the first end marker after its start. *)
Definition block_comment_line (l : str) : Prop :=
  exists ws1 body ws2,
    blank ws1 /\ blank ws2 /\
    l = ws1 ++ open_marker ++ body ++ close_marker ++ ws2 /\
    find close_marker (body ++ close_marker) = Some (length body).

(** "Only a comment (single-line or block) or only whitespace". *)
Definition comment_only_line (l : str) : Prop :=
  blank l \/ line_comment_line l \/ block_comment_line l.

(** The same, with the line comments restricted to those the block
    comment search leaves alone: no start marker on the line, or a first
    start marker that comes after the [//] and is closed on the line. *)
Definition closed_line_comment (l : str) : Prop :=
  line_comment_line l /\
  (find open_marker l = None \/
   exists i j, find open_marker l = Some i /\
               find_from close_marker l (i + 2) = Some j /\
               line_comment_line (firstn i l)).

Definition inert_line (l : str) : Prop :=
  blank l \/ closed_line_comment l \/ block_comment_line l.

(** ** The shape of the output *)

(** What a flush appends. *)
Definition flush (buf : str) : list str :=
  match buf with
  | [] => []
  | _ => [buf]
  end.

(** The placer run over a sequence of code lines. *)
Definition places (ob : list str * str) (cs : list str) : list str * str :=
  fold_left (fun ob c => place (fst ob) (snd ob) c) cs ob.

(** A non-empty string that neither begins nor ends with whitespace. *)
Definition tidy (c : str) : Prop :=
  c <> [] /\ is_space (hd 0%N c) = false /\ is_space (last c 0%N) = false.

(** No two neighbours are both non-directive lines. *)
Fixpoint no_adjacent_code (ls : list str) : Prop :=
  match ls with
  | a :: t =>
      match t with
      | b :: _ => (is_directive a = true \/ is_directive b = true)
      | [] => True
      end /\ no_adjacent_code t
  | [] => True
  end.

(** The lines of a minified text. *)
Definition minified (ls : list str) : Prop :=
  Forall tidy ls /\ Forall one_line ls /\ no_adjacent_code ls.

(** What holds of the output list and the buffer after every iteration:
    the output lines are tidy, no two neighbours are both code, the last
    one is a directive, and a non-empty buffer is tidy code. *)
Definition placed_ok (ob : list str * str) : Prop :=
  Forall tidy (fst ob) /\
  no_adjacent_code (fst ob) /\
  (fst ob = [] \/ is_directive (last (fst ob) []) = true) /\
  (snd ob = [] \/ (tidy (snd ob) /\ is_directive (snd ob) = false)).

(** "Already minified", in the words of the property: no comments, every
    directive on a line of its own, no blank line, and no two neighbouring
    lines of plain code. *)
Definition already_minified (s : str) : Prop :=
  (find line_marker s = None /\ find open_marker s = None) /\
  Forall (fun l => In HASH l -> is_directive (lstrip l) = true)
         (splitlines s) /\
  Forall (fun l => ~ blank l) (splitlines s) /\
  no_adjacent_code (map lstrip (splitlines s)).

(** ** Line splitting at LF and CR LF only

    The split of a text "on [\n], with or without a preceding [\r]": as
    [splitlines], with LF and CR LF as the only terminators. *)
Fixpoint lines_lf_crlf (s : str) : list str :=
  match s with
  | [] => []
  | c :: t =>
      if (c =? LF)%N then [] :: lines_lf_crlf t
      else
        match t with
        | d :: t' =>
            if ((c =? CR) && (d =? LF))%N then [] :: lines_lf_crlf t'
            else match lines_lf_crlf t with
                 | [] => [[c]]
                 | l :: ls => (c :: l) :: ls
                 end
        | [] => [[c]]
        end
  end.

(** Every line boundary of the text is an LF, or a CR right before an
    LF. *)
Fixpoint only_lf_crlf (s : str) : Prop :=
  match s with
  | [] => True
  | c :: t =>
      (is_linebreak c = true ->
       c = LF \/ (c = CR /\ exists t', t = LF :: t'))
      /\ only_lf_crlf t
  end.

(** ** Comment regions, read character by character

    The reference reading of the two kinds of comment: outside a block
    comment, [//] hides the rest of the line and [/*] opens a block
    comment; inside one, the first [*/] closes it.  [visible inside l] is
    the text of line [l] outside every comment region, with the state at
    the end of the line. *)
Fixpoint visible (inside : bool) (l : str) : str * bool :=
  match l with
  | [] => ([], inside)
  | c :: t =>
      if inside then
        if startswith close_marker l then
          match t with
          | _ :: t' => visible false t'
          | [] => ([], false)
          end
        else visible true t
      else if startswith line_marker l then ([], false)
      else if startswith open_marker l then
        match t with
        | _ :: t' => visible true t'
        | [] => ([], true)
        end
      else let (v, f) := visible false t in (c :: v, f)
  end.

(** The comment-free text of a sequence of lines. *)
Fixpoint comment_free_text (inside : bool) (ls : list str) : str :=
  match ls with
  | [] => []
  | l :: ls' =>
      fst (visible inside l) ++ comment_free_text (snd (visible inside l)) ls'
  end.

(** A text stripped on both sides, if anything is left. *)
Definition stripped (v : str) : option str :=
  match strip v with
  | [] => None
  | c => Some c
  end.

(** The comment-free text of each line, stripped, blank ones dropped. *)
Fixpoint clean_lines (inside : bool) (ls : list str) : list str :=
  match ls with
  | [] => []
  | l :: ls' =>
      match stripped (fst (visible inside l)) with
      | Some c => c :: clean_lines (snd (visible inside l)) ls'
      | None => clean_lines (snd (visible inside l)) ls'
      end
  end.

(** [a] is [b] with some characters deleted. *)
Inductive subseq : str -> str -> Prop :=
| subseq_nil : subseq [] []
| subseq_skip a c b : subseq a b -> subseq a (c :: b)
| subseq_keep a c b : subseq a b -> subseq (c :: a) (c :: b).

(** [sub] occurs in [l] at position [j]. *)
Definition occurs_at (sub l : str) (j : nat) : Prop :=
  startswith sub (skipn j l) = true.

(** The first block-comment start of [r], if any, lies in a line
    comment: a [//] comes before it. *)
Definition hidden_open (r : str) : bool :=
  match find open_marker r with
  | None => true
  | Some i =>
      match find line_marker r with
      | Some k => k <? i
      | None => false
      end
  end.

(** The texts on which one search for a block-comment start, made before
    line comments are looked at, reads comments as the reference does.
    With [i] the first start marker of [t]: when a [//] comes before it
    the marker must be closed on the line, and either lie clear of the
    [//] or be followed, after its end marker, by a [/] that restores the
    [//]; otherwise, when the marker is closed on the line, the next
    start marker after its end marker must lie in a line comment. *)
Definition readable_text (t : str) : bool :=
  match find open_marker t with
  | None => true
  | Some i =>
      match find line_marker (firstn (i + 1) t),
            find_from close_marker t (i + 2) with
      | Some k, Some j =>
          (k + 2 <=? i) || startswith [SLASH] (skipn (j + 2) t)
      | Some _, None => false
      | None, Some j => hidden_open (skipn (j + 2) t)
      | None, None => true
      end
  end.

(** The same for a line met in state [inside]: the text looked at is the
    line, or what follows the end marker of the running comment. *)
Definition readable (inside : bool) (l : str) : bool :=
  match leave_comment inside l with
  | None => true
  | Some t => readable_text t
  end.

Fixpoint readable_lines (inside : bool) (ls : list str) : bool :=
  match ls with
  | [] => true
  | l :: ls' =>
      readable inside l && readable_lines (snd (visible inside l)) ls'
  end.

(** ** The scanner followed against the reference reading

    Line after line the scanner and the reference are in step ([Sync]:
    both outside, or both inside, a block comment), or the scanner is
    [Ahead]: inside a block comment that the reference does not see,
    opened by a start marker that lies in a line comment. *)
Inductive track : Type :=
| Sync (inside : bool)
| Ahead.

Definition scanner_inside (tr : track) : bool :=
  match tr with Sync b => b | Ahead => true end.

Definition reference_inside (tr : track) : bool :=
  match tr with Sync b => b | Ahead => false end.

(** A text met with both readings outside a block comment: where the
    two are afterwards, or [None] when the scanner keeps comment text.
    The cases are those of [readable_text]; in addition, a first start
    marker that comes after a [//], clear of it, and has no end marker
    after it puts the scanner ahead. *)
Definition track_text (t : str) : option track :=
  match find open_marker t with
  | None => Some (Sync false)
  | Some i =>
      match find line_marker (firstn (i + 1) t),
            find_from close_marker t (i + 2) with
      | Some k, Some j =>
          if (k + 2 <=? i) || startswith [SLASH] (skipn (j + 2) t)
          then Some (Sync false) else None
      | Some k, None => if k + 2 <=? i then Some Ahead else None
      | None, Some j =>
          if hidden_open (skipn (j + 2) t) then Some (Sync false) else None
      | None, None => Some (Sync true)
      end
  end.

Definition no_marker (p : str) : bool :=
  match find line_marker p, find open_marker p with
  | None, None => true
  | _, _ => false
  end.

(** The scanner, ahead of the reference, leaves its block comment at the
    first end marker of the line, at [e].  The reference is outside
    every comment just after that marker when the marker ends a block
    comment that begins on the line before any [//], or when no [//] and
    no start marker begins at or before the [/] of the end marker. *)
Definition resumes_clean (l : str) (e : nat) : bool :=
  match find open_marker l with
  | Some i =>
      if i + 2 <=? e then
        match find line_marker (firstn (i + 1) l) with
        | None => true
        | Some _ => false
        end
      else no_marker (firstn (e + 3) l)
  | None => no_marker (firstn (e + 3) l)
  end.

(** A text that gives the scanner nothing: whitespace or a line comment,
    with no start marker. *)
Definition silent (r : str) : bool :=
  match find open_marker r, strip r with
  | None, [] => true
  | None, _ => startswith line_marker (lstrip r)
  | Some _, _ => false
  end.

(** One line.  Ahead of the reference, the scanner drops a line without
    end marker, whatever the reference reads on it; on a line with one
    it resumes after the first, which must leave the reference outside
    every comment, unless what follows is silent. *)
Definition track_line (tr : track) (l : str) : option track :=
  match tr with
  | Sync false => track_text l
  | Sync true =>
      match find close_marker l with
      | Some e => track_text (skipn (e + 2) l)
      | None => Some (Sync true)
      end
  | Ahead =>
      match find close_marker l with
      | Some e =>
          if resumes_clean l e then track_text (skipn (e + 2) l)
          else if silent (skipn (e + 2) l) && negb (snd (visible false l))
               then Some (Sync false) else None
      | None => Some (if snd (visible false l) then Sync true else Ahead)
      end
  end.

Fixpoint track_lines (tr : track) (ls : list str) : bool :=
  match ls with
  | [] => true
  | l :: ls' =>
      match track_line tr l with
      | Some tr' => track_lines tr' ls'
      | None => false
      end
  end.

(** The text of a code line, if any. *)
Definition code_text (o : option str) : str :=
  match o with Some c => c | None => [] end.

(** ** Directive lines, read off the input text

    A directive line is a line whose first character after the leading
    whitespace is [#]; its text is the line without that whitespace, cut
    at its first [//] and stripped on the right. *)
Definition directive_line (l : str) : bool := is_directive (lstrip l).

Definition directive_text (l : str) : str :=
  rstrip (cut line_marker (lstrip l)).

Definition has_hash (l : str) : bool := existsb (N.eqb HASH) l.

(** The first block-comment start of [l], if any, comes after a [//]
    and is not glued to it. *)
Definition open_commented (l : str) : bool :=
  match find open_marker l with
  | None => true
  | Some i =>
      match find line_marker l with
      | Some k => k + 2 <=? i
      | None => false
      end
  end.

(** Every line that holds a [#] is met by the scanner outside a block
    comment and has its block-comment starts, if any, in a line
    comment. *)
Fixpoint directives_plain (inside : bool) (ls : list str) : bool :=
  match ls with
  | [] => true
  | l :: ls' =>
      (negb (has_hash l) || (negb inside && open_commented l))
      && directives_plain (snd (scan inside l)) ls'
  end.

(** Lines 59-63: the code line of a line whose block comments have been
    handled. *)
Definition code_line_of (line : str) : option str :=
  match strip line with
  | [] => None
  | _ => if startswith line_marker (lstrip line) then None
         else Some (code_of (lstrip line))
  end.

(** ** The command-line entry point

    [main] reads the path from the argument vector, reads the file,
    minifies it and prints the result.  The file system is a function
    [read] from a path to what the [with] block of lines 92-93 gives:
    the text, a [FileNotFoundError], or another exception with its
    message.  Standard output is a function [write] that tells, for a
    chunk of text, whether [sys.stdout.write] accepts it or raises (an
    encoding error, a closed or broken stream), and then with which
    message.  [print] writes its argument and then its [end] text; the
    first write that raises ends it.  A run of [main] gives the text
    written to standard output, and whether [main] returned or let an
    exception escape.  Only exceptions that derive from [Exception] are
    modelled. *)
Inductive read_result : Type :=
| ReadOk (text : str)
| ReadNotFound
| ReadFailed (message : str).

Inductive outcome : Type :=
| Returned
| Raised (message : str).

Definition print (write : str -> option str) (x ending : str)
  : str * outcome :=
  match write x with
  | Some e => ([], Raised e)
  | None =>
      match write ending with
      | Some e => (x, Raised e)
      | None => (x ++ ending, Returned)
      end
  end.

Definition usage_text : str :=
  lit "Usage: python glsl_minifier.py <path_to_shader>".

(** Lines 99-100: the handler of [except Exception as e].  An exception
    raised by its own [print] is not caught. *)
Definition on_exception (write : str -> option str) (e : str)
  : str * outcome :=
  print write (lit "An error occurred: " ++ e) [LF].

(** Lines 82-100.  [len(sys.argv) < 2] is the case of an argument vector
    with no second element; the usage message is printed outside the
    [try].  Inside it, an exception of [format_shader] would reach the
    last handler (the only one its body could raise by itself is the
    [IndexError] of the index [[0]]), and so does an exception of the
    [print] of line 97, after what that [print] has written. *)
Definition main (argv : list str) (read : str -> read_result)
    (write : str -> option str) : str * outcome :=
  match argv with
  | _ :: filepath :: _ =>
      match read filepath with
      | ReadOk input_shader =>
          match format_shader_exc input_shader with
          | Some formatted_shader =>
              match print write formatted_shader [] with
              | (out, Returned) => (out, Returned)
              | (out, Raised e) =>
                  (out ++ fst (on_exception write e),
                   snd (on_exception write e))
              end
          | None => on_exception write (lit "list index out of range")
          end
      | ReadNotFound =>
          print write (lit "Error: File not found [" ++ filepath ++ lit "]")
                [LF]
      | ReadFailed e => on_exception write e
      end
  | _ => print write usage_text [LF]
  end.

(** A standard output that accepts ASCII text only. *)
Definition ascii_stdout (x : str) : option str :=
  if forallb (fun c => c <? 128)%N x then None
  else Some (lit "ordinal not in range(128)").

(** ** Layout

    [l'] is [l] with whitespace added at its two ends. *)
Definition margins (l l' : str) : Prop :=
  exists ws1 ws2, blank ws1 /\ blank ws2 /\ l' = ws1 ++ l ++ ws2.

(** * Lemmas on the string built-ins *)

Section Builtins.

Lemma is_linebreak_space c : is_linebreak c = true -> is_space c = true.
Proof.
  unfold is_linebreak, is_space.
  rewrite !orb_true_iff, !andb_true_iff, !N.leb_le, !N.eqb_eq.
  lia.
Qed.

Lemma startswith_app p s : startswith p (p ++ s) = true.
Proof.
  induction p as [|a p IH]; simpl; [reflexivity|].
  now rewrite N.eqb_refl, IH.
Qed.

Lemma startswith_inv p s :
  startswith p s = true -> s = p ++ skipn (length p) s.
Proof.
  revert s; induction p as [|a p IH]; intros [|b s]; simpl; try easy.
  rewrite andb_true_iff, N.eqb_eq. intros [-> H]. f_equal. now apply IH.
Qed.

Lemma startswith_app_l p s t :
  startswith p s = true -> startswith p (s ++ t) = true.
Proof.
  intros H. rewrite (startswith_inv _ _ H), <- app_assoc.
  apply startswith_app.
Qed.

Lemma startswith_firstn p s k :
  startswith p (firstn k s) = true -> startswith p s = true.
Proof.
  intros H. rewrite <- (firstn_skipn k s). now apply startswith_app_l.
Qed.

Lemma startswith_cons a p c t :
  startswith (a :: p) (c :: t) = ((a =? c)%N && startswith p t).
Proof. reflexivity. Qed.

Lemma startswith_single a c t : startswith [a] (c :: t) = (a =? c)%N.
Proof. simpl. apply andb_true_r. Qed.

Lemma startswith_nil p : p <> [] -> startswith p [] = false.
Proof. now destruct p. Qed.

Lemma find_nil sub : sub <> [] -> find sub [] = None.
Proof. intros H. simpl. now rewrite startswith_nil. Qed.

Lemma find_nil_eq sub :
  find sub [] = if startswith sub [] then Some 0 else None.
Proof. reflexivity. Qed.

Lemma find_cons sub c t :
  find sub (c :: t) =
  if startswith sub (c :: t) then Some 0 else option_map S (find sub t).
Proof. reflexivity. Qed.

(** [find] returns the position of an occurrence... *)
Lemma find_Some_startswith sub s i :
  find sub s = Some i -> startswith sub (skipn i s) = true /\ i <= length s.
Proof.
  revert i; induction s as [|c t IH]; intros i.
  - rewrite find_nil_eq. destruct (startswith sub []) eqn:E; [|easy].
    intros [= <-]. simpl. now rewrite E.
  - rewrite find_cons. destruct (startswith sub (c :: t)) eqn:E.
    + intros [= <-]. simpl. split; [assumption|lia].
    + destruct (find sub t) as [j|]; [|easy]. simpl. intros [= <-].
      destruct (IH j eq_refl). simpl. split; [assumption|lia].
Qed.

Lemma find_Some_split sub s i :
  find sub s = Some i ->
  s = firstn i s ++ sub ++ skipn (i + length sub) s.
Proof.
  intros H. destruct (find_Some_startswith _ _ _ H) as [H1 _].
  rewrite <- (firstn_skipn i s) at 1. f_equal.
  rewrite (startswith_inv _ _ H1) at 1. f_equal.
  rewrite skipn_skipn. f_equal. lia.
Qed.

(** ... and the lowest one. *)
Lemma find_Some_lowest sub s i j :
  find sub s = Some i -> j < i -> startswith sub (skipn j s) = false.
Proof.
  revert i j; induction s as [|c t IH]; intros i j.
  - rewrite find_nil_eq. destruct (startswith sub []); [|easy].
    intros [= <-]. lia.
  - rewrite find_cons. destruct (startswith sub (c :: t)) eqn:E.
    + intros [= <-]. lia.
    + destruct (find sub t) as [k|] eqn:F; [|easy]. simpl. intros [= <-] Hj.
      destruct j as [|j]; [exact E|]. simpl. apply (IH k); [reflexivity|lia].
Qed.

Lemma find_None_skipn sub s j :
  find sub s = None -> startswith sub (skipn j s) = false.
Proof.
  revert j; induction s as [|c t IH]; intros j.
  - rewrite find_nil_eq. destruct (startswith sub []) eqn:E; [easy|].
    now destruct j.
  - rewrite find_cons. destruct (startswith sub (c :: t)) eqn:E; [easy|].
    destruct (find sub t) eqn:F; [easy|]. intros _.
    destruct j as [|j]; [exact E|]. simpl. now apply IH.
Qed.

(** No occurrence at any position means [find] fails. *)
Lemma find_None_intro sub s :
  (forall j, startswith sub (skipn j s) = false) -> find sub s = None.
Proof.
  induction s as [|c t IH]; intros H.
  - rewrite find_nil_eq. now rewrite (H 0 : startswith sub [] = false).
  - rewrite find_cons. rewrite (H 0 : startswith sub (c :: t) = false).
    rewrite IH; [reflexivity|]. intros j. exact (H (S j)).
Qed.

Lemma find_Some_intro sub s i :
  startswith sub (skipn i s) = true -> i <= length s ->
  (forall j, j < i -> startswith sub (skipn j s) = false) ->
  find sub s = Some i.
Proof.
  revert i; induction s as [|c t IH]; intros i H Hi Hlow.
  - simpl in Hi. assert (i = 0) as -> by lia. rewrite find_nil_eq.
    simpl skipn in H. now rewrite H.
  - rewrite find_cons. destruct i as [|i].
    + simpl in H. now rewrite H.
    + rewrite (Hlow 0 ltac:(lia) : startswith sub (c :: t) = false).
      rewrite (IH i); [reflexivity|exact H|simpl in Hi; lia|].
      intros j Hj. apply (Hlow (S j)). lia.
Qed.

Lemma find_app_None sub a b :
  find sub (a ++ b) = None -> find sub a = None /\ find sub b = None.
Proof.
  intros H. split; apply find_None_intro; intros j.
  - destruct (startswith sub (skipn j a)) eqn:E; [|reflexivity].
    destruct (Nat.le_gt_cases j (length a)) as [Hj|Hj].
    + pose proof (find_None_skipn _ _ j H) as F.
      rewrite skipn_app in F.
      replace (j - length a) with 0 in F by lia. simpl in F.
      pose proof (startswith_app_l _ _ b E) as G. congruence.
    + pose proof (find_None_skipn _ _ (length a) H) as F.
      rewrite skipn_app, skipn_all, Nat.sub_diag in F. simpl in F.
      rewrite skipn_all2 in E by lia.
      pose proof (startswith_app_l _ _ b E) as G. simpl in G. congruence.
  - pose proof (find_None_skipn _ _ (length a + j) H) as F.
    rewrite skipn_app in F. rewrite skipn_all2 in F by lia.
    replace (length a + j - length a) with j in F by lia. exact F.
Qed.

Lemma find_firstn_None sub s i :
  sub <> [] -> find sub s = Some i -> find sub (firstn i s) = None.
Proof.
  intros Hsub H. apply find_None_intro. intros j.
  destruct (startswith sub (skipn j (firstn i s))) eqn:E; [|reflexivity].
  destruct (Nat.lt_ge_cases j i) as [Hj|Hj].
  - pose proof (find_Some_lowest _ _ _ _ H Hj) as L.
    destruct (find_Some_startswith _ _ _ H) as [_ Hi].
    assert (skipn j s = skipn j (firstn i s) ++ skipn i s) as Hs.
    { rewrite <- (firstn_skipn i s) at 1. rewrite skipn_app. f_equal.
      rewrite length_firstn.
      replace (j - Nat.min i (length s)) with 0 by lia. reflexivity. }
    rewrite Hs, (startswith_app_l _ _ _ E) in L. discriminate.
  - rewrite skipn_all2 in E by (rewrite length_firstn; lia).
    now rewrite startswith_nil in E.
Qed.

End Builtins.

Section Strip.

Lemma lstrip_blank s : blank s -> lstrip s = [].
Proof. induction 1 as [|c t Hc _ IH]; simpl; [easy|now rewrite Hc]. Qed.

Lemma lstrip_nil_blank s : lstrip s = [] -> blank s.
Proof.
  induction s as [|c t IH]; simpl; [intros _; constructor|].
  destruct (is_space c) eqn:E; [|easy]. intros H.
  constructor; [exact E|exact (IH H)].
Qed.

Lemma lstrip_head s c t : lstrip s = c :: t -> is_space c = false.
Proof.
  induction s as [|d u IH]; simpl; [easy|].
  destruct (is_space d) eqn:E; [exact IH|]. now intros [= <- _].
Qed.

Lemma lstrip_id c t : is_space c = false -> lstrip (c :: t) = c :: t.
Proof. intros H. simpl. now rewrite H. Qed.

Lemma lstrip_split s : exists ws, blank ws /\ s = ws ++ lstrip s.
Proof.
  induction s as [|c t (ws & Hws & IH)]; simpl.
  - exists []. split; [constructor|reflexivity].
  - destruct (is_space c) eqn:E.
    + exists (c :: ws). split; [now constructor|]. simpl. now f_equal.
    + exists []. split; [constructor|reflexivity].
Qed.

Lemma lstrip_app_blank ws s : blank ws -> lstrip (ws ++ s) = lstrip s.
Proof. induction 1 as [|c t Hc _ IH]; simpl; [easy|now rewrite Hc]. Qed.

Lemma rstrip_cons c t : is_space c = false -> rstrip (c :: t) = c :: rstrip t.
Proof. intros H. simpl. rewrite H. now destruct (rstrip t). Qed.

Lemma rstrip_blank s : blank s -> rstrip s = [].
Proof. induction 1 as [|c t Hc _ IH]; simpl; [easy|now rewrite IH, Hc]. Qed.

Lemma rstrip_nil_blank s : rstrip s = [] -> blank s.
Proof.
  induction s as [|c t IH]; simpl; [intros _; constructor|].
  destruct (rstrip t); [|easy].
  destruct (is_space c) eqn:E; [|easy]. intros _.
  constructor; [exact E|exact (IH eq_refl)].
Qed.

Lemma rstrip_split s : exists ws, blank ws /\ s = rstrip s ++ ws.
Proof.
  induction s as [|c t (ws & Hws & IH)]; simpl.
  - exists []. split; [constructor|reflexivity].
  - destruct (rstrip t) as [|d r] eqn:R.
    + destruct (is_space c) eqn:E.
      * exists (c :: ws). split; [now constructor|]. simpl in *. now f_equal.
      * exists ws. split; [assumption|]. simpl in *. now f_equal.
    + exists ws. split; [assumption|]. simpl. now f_equal.
Qed.

Lemma rstrip_last s d : rstrip s <> [] -> is_space (last (rstrip s) d) = false.
Proof.
  induction s as [|c t IH]; simpl; [easy|].
  destruct (rstrip t) as [|e r] eqn:R.
  - destruct (is_space c) eqn:E; [easy|]. now intros _.
  - intros _. change (last (c :: e :: r) d) with (last (e :: r) d).
    now apply IH.
Qed.

Lemma rstrip_id s d : s <> [] -> is_space (last s d) = false -> rstrip s = s.
Proof.
  induction s as [|c t IH]; [easy|]. intros _ H.
  destruct t as [|e r]; simpl in *; [now rewrite H|].
  rewrite IH in * by easy. reflexivity.
Qed.

Lemma rstrip_app_blank s ws : blank ws -> rstrip (s ++ ws) = rstrip s.
Proof.
  intros H. induction s as [|c t IH]; simpl.
  - now apply rstrip_blank.
  - now rewrite IH.
Qed.

Lemma strip_blank s : blank s -> strip s = [].
Proof. intros H. unfold strip. now rewrite lstrip_blank. Qed.

Lemma strip_nil_blank s : strip s = [] -> blank s.
Proof.
  unfold strip. intros H. apply rstrip_nil_blank in H.
  destruct (lstrip_split s) as (ws & Hws & E). rewrite E.
  apply Forall_app. now split.
Qed.

Lemma strip_nonblank s :
  strip s <> [] ->
  exists c t, lstrip s = c :: t /\ is_space c = false.
Proof.
  unfold strip. destruct (lstrip s) as [|c t] eqn:E; [easy|].
  intros _. exists c, t. split; [reflexivity|]. eapply lstrip_head; eauto.
Qed.

Lemma blank_app a b : blank a -> blank b -> blank (a ++ b).
Proof. intros. apply Forall_app. now split. Qed.

End Strip.

Section Split.

Lemma split_go_nonempty sep skip s : split_go sep skip s <> [].
Proof.
  revert skip; induction s as [|c t IH]; intros skip; simpl; [easy|].
  destruct skip; [|apply IH].
  destruct (startswith sep (c :: t)); [easy|].
  now destruct (split_go sep 0 t).
Qed.

Lemma hd_split_go sep s : sep <> [] -> hd [] (split_go sep 0 s) = cut sep s.
Proof.
  intros Hsep. unfold cut. induction s as [|c t IH].
  - simpl split_go. now rewrite find_nil.
  - rewrite find_cons. simpl split_go.
    destruct (startswith sep (c :: t)); [reflexivity|].
    destruct (find sep t); destruct (split_go sep 0 t);
      simpl in *; congruence.
Qed.

Lemma code_of_cut s : code_of s = rstrip (cut line_marker s).
Proof. unfold code_of. now rewrite hd_split_go. Qed.

Lemma cut_cons sep c t :
  startswith sep (c :: t) = false -> cut sep (c :: t) = c :: cut sep t.
Proof.
  intros H. unfold cut. rewrite find_cons, H. now destruct (find sep t).
Qed.

Lemma cut_no_marker sep s : find sep s = None -> cut sep s = s.
Proof. unfold cut. now intros ->. Qed.

Lemma cut_find_None sep s : sep <> [] -> find sep (cut sep s) = None.
Proof.
  intros Hsep. unfold cut. destruct (find sep s) eqn:E; [|assumption].
  now apply find_firstn_None.
Qed.

(** A code line keeps the first character of the line it comes from. *)
Lemma code_of_head c t :
  is_space c = false -> startswith line_marker (c :: t) = false ->
  code_of (c :: t) = c :: rstrip (cut line_marker t).
Proof.
  intros Hc H. rewrite code_of_cut, cut_cons, rstrip_cons; auto.
Qed.

End Split.

(** Properties of all characters carried through the built-ins. *)
Section Chars.
Variable P : char -> Prop.

Lemma Forall_firstn n (s : str) : Forall P s -> Forall P (firstn n s).
Proof.
  intros H. rewrite <- (firstn_skipn n s) in H.
  now apply Forall_app in H.
Qed.

Lemma Forall_skipn n (s : str) : Forall P s -> Forall P (skipn n s).
Proof.
  intros H. rewrite <- (firstn_skipn n s) in H.
  now apply Forall_app in H.
Qed.

Lemma Forall_lstrip s : Forall P s -> Forall P (lstrip s).
Proof.
  intros H. destruct (lstrip_split s) as (ws & _ & E).
  rewrite E in H. now apply Forall_app in H.
Qed.

Lemma Forall_rstrip s : Forall P s -> Forall P (rstrip s).
Proof.
  intros H. destruct (rstrip_split s) as (ws & _ & E).
  rewrite E in H. now apply Forall_app in H.
Qed.

Lemma Forall_cut sep s : Forall P s -> Forall P (cut sep s).
Proof.
  unfold cut. destruct (find sep s); [apply Forall_firstn|auto].
Qed.

Lemma Forall_code_of s : Forall P s -> Forall P (code_of s).
Proof.
  destruct s as [|c t].
  - intros _. unfold code_of. simpl. constructor.
  - intros H. rewrite code_of_cut. now apply Forall_rstrip, Forall_cut.
Qed.

Lemma Forall_leave_comment inside l l1 :
  leave_comment inside l = Some l1 -> Forall P l -> Forall P l1.
Proof.
  unfold leave_comment. destruct inside.
  - destruct (find close_marker l); [|easy].
    intros [= <-]. apply Forall_skipn.
  - now intros [= <-].
Qed.

Lemma Forall_enter_comment l : Forall P l -> Forall P (fst (enter_comment l)).
Proof.
  intros H. unfold enter_comment.
  destruct (find open_marker l); [|assumption].
  destruct (find_from close_marker l _); simpl.
  - apply Forall_app. split; [now apply Forall_firstn|now apply Forall_skipn].
  - now apply Forall_firstn.
Qed.

End Chars.

(** * Lemmas on the loop *)

Section Loop.

Lemma run_app st a b : run st (a ++ b) = run (run st a) b.
Proof. apply fold_left_app. Qed.

Lemma run_cons st l ls : run st (l :: ls) = run (step st l) ls.
Proof. reflexivity. Qed.

Lemma emit_blank out buf l : blank l -> emit out buf l = (out, buf).
Proof. intros H. unfold emit. now rewrite strip_blank. Qed.

(** An iteration is the scanner followed by the placer. *)
Lemma step_scan st l :
  step st l =
  match scan (in_multiline_comment st) l with
  | (None, inside) => mkState (output_lines st) (buffer_line st) inside
  | (Some c, inside) =>
      let (out, buf) := place (output_lines st) (buffer_line st) c in
      mkState out buf inside
  end.
Proof.
  unfold step, scan, emit. destruct st as [out buf fl].
  cbn [output_lines buffer_line in_multiline_comment].
  destruct (leave_comment fl l) as [l1|]; [|reflexivity].
  destruct (enter_comment l1) as [l2 fl'].
  destruct (strip l2); [reflexivity|].
  destruct (startswith line_marker (lstrip l2)); reflexivity.
Qed.

Lemma flag_step st l :
  in_multiline_comment (step st l) = snd (scan (in_multiline_comment st) l).
Proof.
  rewrite step_scan. destruct (scan _ l) as [[c|] fl]; simpl; [|reflexivity].
  now destruct (place _ _ c).
Qed.

Lemma flag_run st ls :
  in_multiline_comment (run st ls) = flag_after (in_multiline_comment st) ls.
Proof.
  revert st; induction ls as [|l ls IH]; intros st; [reflexivity|].
  rewrite run_cons, IH, flag_step. reflexivity.
Qed.

(** Inside a block comment a line without end marker changes nothing. *)
Lemma step_inside st l :
  in_multiline_comment st = true -> find close_marker l = None ->
  step st l = st.
Proof. intros Hf Hl. unfold step, leave_comment. now rewrite Hf, Hl. Qed.

Lemma run_inside st ls :
  in_multiline_comment st = true ->
  Forall (fun l => find close_marker l = None) ls ->
  run st ls = st.
Proof.
  intros Hf H. induction H as [|l ls Hl _ IH]; [reflexivity|].
  now rewrite run_cons, step_inside.
Qed.

(** Inside a block comment, the line with the end marker is processed
    from just after the marker, outside the comment. *)
Lemma step_resume st l e :
  in_multiline_comment st = true -> find close_marker l = Some e ->
  step st l =
  step (mkState (output_lines st) (buffer_line st) false) (skipn (e + 2) l).
Proof. intros Hf Hl. unfold step, leave_comment. now rewrite Hf, Hl. Qed.

(** Outside a block comment, a line whose first start marker has no end
    marker after it is cut at the start marker and sets the flag. *)
Lemma enter_comment_open l i :
  find open_marker l = Some i ->
  find_from close_marker l (i + 2) = None ->
  enter_comment l = (firstn i l, true).
Proof. intros H1 H2. unfold enter_comment. now rewrite H1, H2. Qed.

Lemma enter_comment_pair l i j :
  find open_marker l = Some i ->
  find_from close_marker l (i + 2) = Some j ->
  enter_comment l = (firstn i l ++ skipn (j + 2) l, false).
Proof. intros H1 H2. unfold enter_comment. now rewrite H1, H2. Qed.

Lemma enter_comment_none l :
  find open_marker l = None -> enter_comment l = (l, false).
Proof. intros H. unfold enter_comment. now rewrite H. Qed.

Lemma finish_flag out buf f1 f2 :
  finish (mkState out buf f1) = finish (mkState out buf f2).
Proof. reflexivity. Qed.

End Loop.

Section FindMore.

Lemma startswith_firstn_ge p s k :
  startswith p s = true -> length p <= k -> startswith p (firstn k s) = true.
Proof.
  intros H Hk. rewrite (startswith_inv _ _ H).
  rewrite firstn_app. rewrite firstn_all2 by exact Hk.
  apply startswith_app.
Qed.

Lemma startswith_length p s : startswith p s = true -> length p <= length s.
Proof.
  intros H. rewrite (startswith_inv _ _ H), length_app. lia.
Qed.

Lemma find_Some_bound sub s i :
  find sub s = Some i -> i + length sub <= length s.
Proof.
  intros H. destruct (find_Some_startswith _ _ _ H) as [H1 H2].
  apply startswith_length in H1. rewrite length_skipn in H1. lia.
Qed.

Lemma find_firstn_Some sub s e n :
  find sub s = Some e -> e + length sub <= n ->
  find sub (firstn n s) = Some e.
Proof.
  intros H Hn. pose proof (find_Some_bound _ _ _ H) as Hb.
  destruct (find_Some_startswith _ _ _ H) as [H1 _].
  apply find_Some_intro.
  - rewrite skipn_firstn_comm. apply startswith_firstn_ge; [exact H1|lia].
  - rewrite length_firstn. lia.
  - intros j Hj. rewrite skipn_firstn_comm.
    destruct (startswith sub (firstn (n - j) (skipn j s))) eqn:E;
      [|reflexivity].
    apply startswith_firstn in E.
    now rewrite (find_Some_lowest _ _ _ _ H Hj) in E.
Qed.

Lemma open_marker_ne : open_marker <> [].
Proof. discriminate. Qed.

Lemma close_marker_ne : close_marker <> [].
Proof. discriminate. Qed.

Lemma line_marker_ne : line_marker <> [].
Proof. discriminate. Qed.

Lemma find_from_None sub s k :
  find_from sub s k = None -> find sub (skipn k s) = None.
Proof. unfold find_from. now destruct (find sub (skipn k s)). Qed.

End FindMore.

(** ** No exception is ever raised *)

Section Total.

Lemma code_of_exc_total s : code_of_exc s = Some (code_of s).
Proof.
  unfold code_of_exc, code_of, split, line_marker.
  pose proof (split_go_nonempty [SLASH; SLASH] 0 s) as H.
  now destruct (split_go [SLASH; SLASH] 0 s).
Qed.

Lemma emit_exc_total out buf l : emit_exc out buf l = Some (emit out buf l).
Proof.
  unfold emit_exc, emit. destruct (strip l); [reflexivity|].
  destruct (startswith line_marker (lstrip l)); [reflexivity|].
  now rewrite code_of_exc_total.
Qed.

Lemma step_exc_total st l : step_exc st l = Some (step st l).
Proof.
  unfold step_exc, step.
  destruct (leave_comment (in_multiline_comment st) l); [|reflexivity].
  destruct (enter_comment s) as [l2 fl]. rewrite emit_exc_total.
  now destruct (emit (output_lines st) (buffer_line st) l2).
Qed.

Lemma run_exc_total st ls : run_exc st ls = Some (run st ls).
Proof.
  revert st; induction ls as [|l ls IH]; intros st; [reflexivity|].
  simpl run_exc. now rewrite step_exc_total, IH.
Qed.

Lemma format_shader_exc_total s : format_shader_exc s = Some (format_shader s).
Proof. unfold format_shader_exc. now rewrite run_exc_total. Qed.

End Total.

(** * The scenarios of the specification *)

Example scenario_line_comment :
  format_shader (nl (lit "// hello") (nl (lit "float x = 1.0;") []))
  = lit "float x = 1.0;".
Proof. reflexivity. Qed.

Example scenario_block_comment :
  format_shader (nl (lit "/* block") (lit "comment */float y = 2.0;"))
  = lit "float y = 2.0;".
Proof. reflexivity. Qed.

Example scenario_merge :
  format_shader (nl (lit "float a = 1;") (lit "float b = 2;"))
  = lit "float a = 1;float b = 2;".
Proof. reflexivity. Qed.

Example scenario_empty : format_shader [] = [].
Proof. reflexivity. Qed.

(** * Unterminated block comments *)

(** What the scanner sees at a start marker it leaves open, and on the
    same line cut just before that marker. *)
Lemma unterminated_at_inv inside l p :
  unterminated_at inside l = Some p ->
  exists l1 i,
    leave_comment inside l = Some l1 /\
    enter_comment l1 = (firstn i l1, true) /\
    leave_comment inside (firstn p l) = Some (firstn i l1) /\
    enter_comment (firstn i l1) = (firstn i l1, false).
Proof.
  unfold unterminated_at.
  destruct (leave_comment inside l) as [l1|] eqn:Hl; [|easy].
  destruct (find open_marker l1) as [i|] eqn:Hi; [|easy].
  destruct (find_from close_marker l1 (i + 2)) eqn:Hc; [easy|].
  intros [= <-]. exists l1, i.
  split; [reflexivity|]. split; [now apply enter_comment_open|].
  split; [|apply enter_comment_none, find_firstn_None;
           [exact open_marker_ne|exact Hi]].
  unfold leave_comment in *. destruct inside.
  - destruct (find close_marker l) as [e|] eqn:He; [|easy].
    injection Hl as <-.
    pose proof (find_Some_bound _ _ _ He) as Hb. simpl length in Hb.
    rewrite length_skipn.
    replace (length l - (length l - (e + 2)) + i) with (e + 2 + i) by lia.
    rewrite (find_firstn_Some _ _ _ (e + 2 + i) He) by (simpl; lia).
    rewrite skipn_firstn_comm.
    now replace (e + 2 + i - (e + 2)) with i by lia.
  - injection Hl as <-. now rewrite Nat.sub_diag.
Qed.

(** Cutting a line just before a start marker that is left open gives
    the same state, up to the flag. *)
Lemma step_unterminated st l p :
  unterminated_at (in_multiline_comment st) l = Some p ->
  in_multiline_comment (step st l) = true /\
  finish (step st l) = finish (step st (firstn p l)).
Proof.
  intros H. apply unterminated_at_inv in H.
  destruct H as (l1 & i & H1 & H2 & H3 & H4).
  unfold step. rewrite H1, H2, H3, H4.
  destruct (emit (output_lines st) (buffer_line st) (firstn i l1)) as [o b].
  split; reflexivity.
Qed.

(** C2, as the code has it.  An unterminated block comment swallows the
    rest of the input without error: when the scanner meets a start
    marker (the first one in the text of the line it looks at, outside a
    block comment) with no end marker after it on its line, and no later
    line holds an end marker, the output is that of the input cut just
    before the start marker, so the comment start and every following
    line are discarded.  In particular the two lines [/* unterminated]
    and [float c = 3;] minify to the empty string. *)
Theorem C2_unterminated_block_comment :
  (forall s pre l post p,
      splitlines s = pre ++ l :: post ->
      unterminated_at (in_multiline_comment (run init pre)) l = Some p ->
      Forall (fun x => find close_marker x = None) post ->
      format_shader_exc s = Some (format_shader s) /\
      format_shader s = join [LF] (format_lines (pre ++ [firstn p l])))
  /\ format_shader (nl (lit "/* unterminated") (lit "float c = 3;")) = [].
Proof.
  split; [|reflexivity].
  intros s pre l post p Hs Hp Hpost. split; [apply format_shader_exc_total|].
  unfold format_shader, format_lines. rewrite Hs. f_equal.
  rewrite !run_app, !run_cons.
  destruct (step_unterminated _ _ _ Hp) as [Hf Hfin].
  rewrite run_inside by assumption. exact Hfin.
Qed.

Lemma C2_witness :
  format_shader (nl (lit "x = 1; /* open") (lit "y = 2;")) = lit "x = 1;".
Proof.
  destruct C2_unterminated_block_comment as [H _].
  destruct (H (nl (lit "x = 1; /* open") (lit "y = 2;"))
              [] (lit "x = 1; /* open") [lit "y = 2;"] 7) as [_ E].
  - reflexivity.
  - reflexivity.
  - repeat constructor.
  - rewrite E. reflexivity.
Defined.

(** C2 as stated fails: a block-comment start that follows a closed
    block comment on the same line is not detected, so neither it nor
    the lines after it are discarded. *)
Lemma C2_counterexample :
  ~ (forall pre a b post,
        find close_marker b = None ->
        Forall (fun x => find close_marker x = None) post ->
        format_lines (pre ++ (a ++ open_marker ++ b) :: post)
        = format_lines (pre ++ [a])).
Proof.
  intros H.
  assert (Forall (fun x => find close_marker x = None) [lit "d"]) as Hd
    by (repeat constructor).
  specialize (H [] (lit "/* a */ b ") (lit " c") [lit "d"] eq_refl Hd).
  vm_compute in H. discriminate H.
Qed.

(** * One block comment per line, found before line comments *)

(** A non-directive code line without line comment goes to the buffer as
    it is, stripped on both sides. *)
Lemma emit_plain out buf l c t :
  find line_marker l = None -> lstrip l = c :: t -> c <> HASH ->
  emit out buf l = (out, buf ++ rstrip (lstrip l)).
Proof.
  intros Hm Hl Hc. pose proof (lstrip_head _ _ _ Hl) as Hsp.
  destruct (lstrip_split l) as (ws & _ & E). rewrite E in Hm.
  apply find_app_None in Hm. destruct Hm as [_ Hm]. rewrite Hl in Hm.
  pose proof (find_None_skipn _ _ 0 Hm) as Hs. simpl skipn in Hs.
  unfold emit, strip. rewrite Hl, Hs, rstrip_cons by exact Hsp.
  rewrite code_of_cut, (cut_no_marker _ _ Hm), rstrip_cons by exact Hsp.
  unfold place. rewrite startswith_single.
  destruct (N.eqb_spec HASH c) as [E'|_]; [now symmetry in E'|].
  reflexivity.
Qed.

(** C5.  Outside a block comment, a line with a start marker and an end
    marker after it loses exactly the text from the first start marker
    through the first end marker after it; what remains is handed to the
    rest of the iteration without a second search for a start marker, so
    a second pair on the line stays in the output. *)
Theorem C5_first_block_comment_only :
  (forall st l i j,
      in_multiline_comment st = false ->
      find open_marker l = Some i ->
      find_from close_marker l (i + 2) = Some j ->
      let rest := firstn i l ++ skipn (j + 2) l in
      step st l =
      (let (out, buf) := emit (output_lines st) (buffer_line st) rest in
       mkState out buf false) /\
      (forall c t,
          find line_marker rest = None -> lstrip rest = c :: t ->
          c <> HASH ->
          step st l =
          mkState (output_lines st)
                  (buffer_line st ++ rstrip (lstrip rest)) false))
  /\ format_shader (lit "a /* x */ b /* y */ c") = lit "a  b /* y */ c".
Proof.
  split; [|reflexivity].
  intros st l i j Hf Hi Hj rest.
  assert (step st l =
          (let (out, buf) := emit (output_lines st) (buffer_line st) rest in
           mkState out buf false)) as Hstep.
  { unfold step, leave_comment. rewrite Hf.
    now rewrite (enter_comment_pair _ _ _ Hi Hj). }
  split; [exact Hstep|].
  intros c t Hm Hl Hc. rewrite Hstep.
  now rewrite (emit_plain _ _ _ _ _ Hm Hl Hc).
Qed.

Lemma C5_witness :
  step init (lit "a /* x */ b /* y */ c") =
  mkState [] (lit "a  b /* y */ c") false.
Proof.
  destruct C5_first_block_comment_only as [H _].
  destruct (H init (lit "a /* x */ b /* y */ c") 2 7
              eq_refl eq_refl eq_refl) as [_ E].
  exact (E 97%N (skipn 1 (lit "a  b /* y */ c")) eq_refl eq_refl
           ltac:(discriminate)).
Defined.

(** C8, as the code has it.  The search for a block-comment start comes
    before the removal of line comments: outside a block comment, on a
    line whose first start marker comes after a [//] and has no end
    marker after it, the flag is set all the same; the lines that follow
    are dropped as long as they hold no end marker, and the first line
    that holds one is taken up again just after it. *)
Theorem C8_block_start_inside_line_comment :
  (forall st l k i mid,
      in_multiline_comment st = false ->
      find line_marker l = Some k ->
      find open_marker l = Some i ->
      k < i ->
      find_from close_marker l (i + 2) = None ->
      Forall (fun x => find close_marker x = None) mid ->
      in_multiline_comment (step st l) = true /\
      run (step st l) mid = step st l /\
      (forall m e,
          find close_marker m = Some e ->
          run st (l :: mid ++ [m]) =
          step (mkState (output_lines (step st l))
                        (buffer_line (step st l)) false)
               (skipn (e + 2) m)))
  /\ format_shader
       (nl (lit "x = 1; // note /* oops") (nl (lit "y = 2;") (lit "*/ z = 3;")))
     = lit "x = 1;z = 3;".
Proof.
  split; [|reflexivity].
  intros st l k i mid Hf Hk Hi Hlt Hc Hmid.
  assert (in_multiline_comment (step st l) = true) as Hset.
  { unfold step, leave_comment. rewrite Hf.
    rewrite (enter_comment_open _ _ Hi Hc).
    now destruct (emit (output_lines st) (buffer_line st) (firstn i l)). }
  split; [exact Hset|]. split; [now apply run_inside|].
  intros m e He. rewrite run_cons, run_app, (run_inside _ mid Hset Hmid).
  apply (step_resume _ _ _ Hset He).
Qed.

Lemma C8_witness :
  in_multiline_comment (step init (lit "x = 1; // note /* oops")) = true.
Proof.
  destruct C8_block_start_inside_line_comment as [H _].
  assert (7 < 15) as Hlt by lia.
  assert (Forall (fun x => find close_marker x = None) [lit "y = 2;"])
    as Hmid by (repeat constructor).
  destruct (H init (lit "x = 1; // note /* oops") 7 15 [lit "y = 2;"]
              eq_refl eq_refl eq_refl Hlt eq_refl Hmid) as [E _].
  exact E.
Defined.

(** C8 as stated fails: the start marker that sets the flag is the first
    of its line only.  On a line met outside a block comment, a start
    marker that comes after a [//] and has no end marker after it does
    not set the flag when a comment closed on the line comes before it,
    and the line that follows is kept. *)
Lemma C8_counterexample :
  ~ (forall st l k i,
        in_multiline_comment st = false ->
        occurs_at line_marker l k ->
        occurs_at open_marker l i ->
        k < i ->
        find close_marker (skipn (i + 2) l) = None ->
        in_multiline_comment (step st l) = true)
  /\ format_shader (nl (lit "/* a */ x // y /* z") (lit "w")) = lit "xw".
Proof.
  split; [|reflexivity].
  intros H. assert (10 < 15) as Hlt by lia.
  specialize (H init (lit "/* a */ x // y /* z") 10 15
                eq_refl eq_refl eq_refl Hlt eq_refl).
  discriminate H.
Qed.

(** * Totality *)

(** C6.  The pass never raises: with the two operations that could raise
    made explicit, every input yields a result, the one the pure
    embedding computes.  The empty input, and any input whose lines are
    all empty or whitespace, give the empty string. *)
Theorem C6_total_and_empty :
  (forall s, format_shader_exc s = Some (format_shader s))
  /\ format_shader [] = []
  /\ (forall s, Forall blank (splitlines s) -> format_shader s = []).
Proof.
  split; [exact format_shader_exc_total|]. split; [reflexivity|].
  intros s H. unfold format_shader, format_lines.
  assert (forall st, in_multiline_comment st = false ->
                     run st (splitlines s) = st) as Hrun.
  { induction H as [|l ls Hl _ IH]; intros st Hf; [reflexivity|].
    rewrite run_cons.
    assert (step st l = st) as ->; [|now apply IH].
    assert (find open_marker l = None) as Ho.
    { apply find_None_intro. intros j.
      destruct (startswith open_marker (skipn j l)) eqn:E; [|reflexivity].
      apply startswith_inv in E.
      assert (In SLASH (skipn j l)) as Hin by (rewrite E; now left).
      apply (Forall_skipn _ j) in Hl.
      rewrite Forall_forall in Hl. now apply Hl in Hin. }
    unfold step, leave_comment. rewrite Hf, (enter_comment_none _ Ho).
    rewrite (emit_blank _ _ _ Hl). now destruct st; simpl in *; subst. }
  now rewrite Hrun.
Qed.

Lemma C6_witness : format_shader (nl (lit "  ") (nl [9%N] [])) = [].
Proof.
  destruct C6_total_and_empty as (_ & _ & H). apply H.
  repeat constructor.
Defined.


(** * Lines that hold only a comment *)

Section Inert.

Lemma lstrip_app s t c u : lstrip s = c :: u -> lstrip (s ++ t) = (c :: u) ++ t.
Proof.
  induction s as [|d s IH]; simpl; [easy|].
  destruct (is_space d); [exact IH|]. now intros [= <- <-].
Qed.

Lemma startswith_app_short p x y :
  startswith p (x ++ y) = true -> length p <= length x ->
  startswith p x = true.
Proof.
  revert x; induction p as [|a p IH]; intros x; [reflexivity|].
  destruct x as [|b x]; cbn [app length]; [lia|]. cbn [startswith].
  rewrite !andb_true_iff. intros [-> H] Hl. split; [reflexivity|].
  apply IH; [exact H|lia].
Qed.

Lemma find_app_Some sub a b i :
  find sub a = Some i -> find sub (a ++ b) = Some i.
Proof.
  intros H. pose proof (find_Some_bound _ _ _ H) as Hb.
  destruct (find_Some_startswith _ _ _ H) as [H1 _].
  apply find_Some_intro.
  - rewrite skipn_app. now apply startswith_app_l.
  - rewrite length_app. lia.
  - intros j Hj. rewrite skipn_app.
    destruct (startswith sub (skipn j a ++ skipn (j - length a) b)) eqn:E;
      [|reflexivity].
    apply startswith_app_short in E; [|rewrite length_skipn; lia].
    now rewrite (find_Some_lowest _ _ _ _ H Hj) in E.
Qed.

(** A marker right after a blank prefix is found there. *)
Lemma find_after_blank ws a m t :
  blank ws -> is_space a = false ->
  find (a :: m) (ws ++ (a :: m) ++ t) = Some (length ws).
Proof.
  intros Hws Ha. induction Hws as [|c ws Hc _ IH].
  - cbn [app length]. rewrite find_cons.
    change (a :: m ++ t) with ((a :: m) ++ t). now rewrite startswith_app.
  - cbn [app length]. rewrite find_cons. cbn [startswith].
    destruct (N.eqb_spec a c) as [->|_]; [congruence|].
    cbn [andb]. cbn [app] in IH. now rewrite IH.
Qed.

Lemma blank_no_open l : blank l -> find open_marker l = None.
Proof.
  intros Hl. apply find_None_intro. intros j.
  destruct (startswith open_marker (skipn j l)) eqn:E; [|reflexivity].
  apply startswith_inv in E.
  assert (In SLASH (skipn j l)) as Hin by (rewrite E; now left).
  apply (Forall_skipn _ j) in Hl.
  unfold blank in Hl. rewrite Forall_forall in Hl. now apply Hl in Hin.
Qed.

(** The block-comment search on a line made of one block comment. *)
Lemma enter_comment_block_line l :
  block_comment_line l ->
  exists ws, blank ws /\ enter_comment l = (ws, false).
Proof.
  intros (ws1 & body & ws2 & H1 & H2 & -> & Hb).
  exists (ws1 ++ ws2). split; [now apply blank_app|].
  assert (find open_marker
            (ws1 ++ open_marker ++ body ++ close_marker ++ ws2)
          = Some (length ws1)) as Ho
    by (now apply find_after_blank).
  assert (skipn (length ws1 + 2)
            (ws1 ++ open_marker ++ body ++ close_marker ++ ws2)
          = (body ++ close_marker) ++ ws2) as Hs.
  { rewrite skipn_app, skipn_all2 by lia.
    replace (length ws1 + 2 - length ws1) with 2 by lia.
    cbn [app skipn open_marker]. now rewrite <- app_assoc. }
  rewrite (enter_comment_pair _ _ (length ws1 + 2 + length body) Ho).
  - f_equal. f_equal.
    + rewrite firstn_app, firstn_all, Nat.sub_diag. cbn [firstn].
      now rewrite app_nil_r.
    + rewrite skipn_app, skipn_all2 by lia.
      replace (length ws1 + 2 + length body + 2 - length ws1)
        with (2 + (length body + 2)) by lia.
      cbn [open_marker app skipn Nat.add].
      rewrite skipn_app, skipn_all2 by lia.
      replace (length body + 2 - length body) with 2 by lia.
      reflexivity.
  - unfold find_from. rewrite Hs, (find_app_Some _ _ _ _ Hb). reflexivity.
Qed.

Lemma emit_line_comment out buf l :
  line_comment_line l -> emit out buf l = (out, buf).
Proof.
  unfold line_comment_line, emit. intros ->. now destruct (strip l).
Qed.

(** An inert line, met outside a block comment, leaves the state as it
    is. *)
Lemma step_inert st l :
  in_multiline_comment st = false -> inert_line l -> step st l = st.
Proof.
  intros Hf H. unfold step, leave_comment. rewrite Hf.
  assert (forall x, emit (output_lines st) (buffer_line st) x
                    = (output_lines st, buffer_line st) ->
                    (let (out, buf) :=
                       emit (output_lines st) (buffer_line st) x in
                     mkState out buf false) = st) as Hst.
  { intros x ->. destruct st; simpl in *; now subst. }
  destruct H as [H|[[H1 H2]|H]].
  - rewrite (enter_comment_none _ (blank_no_open _ H)).
    apply Hst, emit_blank, H.
  - destruct H2 as [H2|(i & j & Hi & Hj & Hp)].
    + rewrite (enter_comment_none _ H2). apply Hst, emit_line_comment, H1.
    + rewrite (enter_comment_pair _ _ _ Hi Hj).
      apply Hst, emit_line_comment. unfold line_comment_line in *.
      destruct (lstrip (firstn i l)) as [|c u] eqn:E; [easy|].
      rewrite (lstrip_app _ _ _ _ E). now apply startswith_app_l.
  - destruct (enter_comment_block_line _ H) as (ws & Hws & ->).
    apply Hst, emit_blank, Hws.
Qed.

End Inert.

(** C4, as the code has it.  Met outside a block comment, a line of
    whitespace, a line made of one block comment, or a line comment that
    holds no block-comment start (or only one that is closed on the line,
    after the [//]) adds nothing to the output and does not interrupt the
    accumulation: the output is the one of the input without that line.
    The same holds, inside a block comment, of a line without end
    marker.  So [a = 1;], [// comment], [+ 2;] minify to [a = 1;+ 2;]. *)
Theorem C4_inert_line_skipped :
  (forall s pre l post,
      splitlines s = pre ++ l :: post ->
      in_multiline_comment (run init pre) = false ->
      inert_line l ->
      format_shader s = join [LF] (format_lines (pre ++ post)))
  /\ (forall s pre l post,
         splitlines s = pre ++ l :: post ->
         in_multiline_comment (run init pre) = true ->
         find close_marker l = None ->
         format_shader s = join [LF] (format_lines (pre ++ post)))
  /\ format_shader (nl (lit "a = 1;") (nl (lit "// comment") (lit "+ 2;")))
     = lit "a = 1;+ 2;".
Proof.
  split; [|split; [|reflexivity]];
    intros s pre l post Hs Hf Hl; unfold format_shader, format_lines;
    rewrite Hs, !run_app, run_cons.
  - now rewrite (step_inert _ _ Hf Hl).
  - now rewrite (step_inside _ _ Hf Hl).
Qed.

Lemma C4_witness :
  format_shader (nl (lit "a = 1;") (nl (lit " /* note */ ") (lit "+ 2;")))
  = lit "a = 1;+ 2;".
Proof.
  destruct C4_inert_line_skipped as [H _].
  assert (inert_line (lit " /* note */ ")) as Hl.
  { right. right. exists (lit " "), (lit " note "), (lit " ").
    repeat split; repeat constructor. }
  exact (H (nl (lit "a = 1;") (nl (lit " /* note */ ") (lit "+ 2;")))
           [lit "a = 1;"] (lit " /* note */ ") [lit "+ 2;"]
           eq_refl eq_refl Hl).
Defined.

(** C4 as stated fails: a line comment that holds a block-comment start
    sets the flag, and the code lines after it are lost. *)
Lemma C4_counterexample :
  ~ (forall pre l post,
        in_multiline_comment (run init pre) = false ->
        comment_only_line l ->
        format_lines (pre ++ l :: post) = format_lines (pre ++ post)).
Proof.
  intros H.
  specialize (H [lit "a = 1;"] (lit "// /* comment") [lit "+ 2;"] eq_refl).
  assert (comment_only_line (lit "// /* comment")) as Hl
    by (right; left; reflexivity).
  specialize (H Hl). vm_compute in H. discriminate H.
Qed.


(** * The shape of the output *)

Section Shape.

Lemma finish_flush st : finish st = output_lines st ++ flush (buffer_line st).
Proof.
  unfold finish, flush. destruct (buffer_line st); [|reflexivity].
  now rewrite app_nil_r.
Qed.

Lemma place_directive out buf c :
  is_directive c = true -> place out buf c = (out ++ flush buf ++ [c], []).
Proof.
  unfold place, is_directive. intros ->. destruct buf; [reflexivity|].
  cbn [flush]. now rewrite <- app_assoc.
Qed.

Lemma place_code out buf c :
  is_directive c = false -> place out buf c = (out, buf ++ c).
Proof. unfold place, is_directive. now intros ->. Qed.

Lemma places_cons ob c cs :
  places ob (c :: cs) = places (place (fst ob) (snd ob) c) cs.
Proof. reflexivity. Qed.

(** The loop is the placer run over the code lines of the input. *)
Lemma run_places ls st :
  (output_lines (run st ls), buffer_line (run st ls)) =
  places (output_lines st, buffer_line st)
         (code_lines (in_multiline_comment st) ls).
Proof.
  revert st; induction ls as [|l ls IH]; intros st; [reflexivity|].
  rewrite run_cons, IH, step_scan. cbn [code_lines].
  destruct (scan (in_multiline_comment st) l) as [[c|] fl].
  - rewrite places_cons. cbn [fst snd].
    now destruct (place (output_lines st) (buffer_line st) c).
  - reflexivity.
Qed.

Lemma format_lines_places ls :
  format_lines ls =
  fst (places ([], []) (code_lines false ls))
  ++ flush (snd (places ([], []) (code_lines false ls))).
Proof.
  unfold format_lines. rewrite finish_flush.
  change (places ([], []) (code_lines false ls))
    with (places (output_lines init, buffer_line init)
                 (code_lines (in_multiline_comment init) ls)).
  now rewrite <- run_places.
Qed.

(** Every code line is tidy. *)
Lemma code_of_tidy c t :
  is_space c = false -> startswith line_marker (c :: t) = false ->
  tidy (code_of (c :: t)).
Proof.
  intros Hc H. pose proof (code_of_head c t Hc H) as E.
  repeat split.
  - now rewrite E.
  - now rewrite E.
  - rewrite code_of_cut. apply rstrip_last.
    rewrite <- code_of_cut, E. discriminate.
Qed.

Lemma scan_inv inside l c fl :
  scan inside l = (Some c, fl) ->
  exists l1 l2 x t,
    leave_comment inside l = Some l1 /\ enter_comment l1 = (l2, fl) /\
    lstrip l2 = x :: t /\ is_space x = false /\
    startswith line_marker (x :: t) = false /\
    c = code_of (x :: t).
Proof.
  unfold scan. destruct (leave_comment inside l) as [l1|]; [|easy].
  destruct (enter_comment l1) as [l2 fl'] eqn:E.
  destruct (strip l2) eqn:S; [easy|].
  destruct (strip_nonblank l2) as (x & t & Hl & Hx); [now rewrite S|].
  rewrite Hl. destruct (startswith line_marker (x :: t)) eqn:M; [easy|].
  intros [= <- <-]. exists l1, l2, x, t. repeat split; auto.
Qed.

Lemma scan_tidy inside l c fl : scan inside l = (Some c, fl) -> tidy c.
Proof.
  intros H. destruct (scan_inv _ _ _ _ H)
    as (l1 & l2 & x & t & _ & _ & _ & Hx & Hm & ->).
  now apply code_of_tidy.
Qed.

Lemma scan_one_line inside l c fl :
  one_line l -> scan inside l = (Some c, fl) -> one_line c.
Proof.
  intros Hl H. destruct (scan_inv _ _ _ _ H)
    as (l1 & l2 & x & t & H1 & H2 & H3 & _ & _ & ->).
  unfold one_line. apply Forall_code_of. rewrite <- H3.
  apply Forall_lstrip.
  replace l2 with (fst (enter_comment l1)) by now rewrite H2.
  apply Forall_enter_comment. eapply Forall_leave_comment; eauto.
Qed.

Lemma code_lines_tidy ls inside : Forall tidy (code_lines inside ls).
Proof.
  revert inside; induction ls as [|l ls IH]; intros inside; cbn [code_lines].
  - constructor.
  - destruct (scan inside l) as [[c|] fl] eqn:E; [|apply IH].
    constructor; [eapply scan_tidy; eauto|apply IH].
Qed.

Lemma code_lines_one_line ls inside :
  Forall one_line ls -> Forall one_line (code_lines inside ls).
Proof.
  intros H; revert inside.
  induction H as [|l ls Hl _ IH]; intros inside; cbn [code_lines].
  - constructor.
  - destruct (scan inside l) as [[c|] fl] eqn:E; [|apply IH].
    constructor; [eapply scan_one_line; eauto|apply IH].
Qed.

End Shape.

Section Lines.

Lemma splitlines_cons c t :
  splitlines (c :: t) =
  if is_linebreak c then
    if (c =? CR)%N then
      match t with
      | d :: t' => if (d =? LF)%N then [] :: splitlines t'
                   else [] :: splitlines t
      | [] => [] :: splitlines t
      end
    else [] :: splitlines t
  else
    match splitlines t with
    | [] => [[c]]
    | l :: ls => (c :: l) :: ls
    end.
Proof. reflexivity. Qed.

Lemma splitlines_lf t : splitlines (LF :: t) = [] :: splitlines t.
Proof. reflexivity. Qed.

(** No line of [splitlines] holds a line boundary. *)
Lemma splitlines_one_line s : Forall one_line (splitlines s).
Proof.
  induction s as [|c t IH]; [constructor|].
  rewrite splitlines_cons. destruct (is_linebreak c) eqn:Hc.
  - assert (Forall one_line ([] :: splitlines t)) as H0
      by (constructor; [constructor|exact IH]).
    destruct (c =? CR)%N; [|exact H0].
    destruct t as [|d t']; [exact H0|].
    destruct (N.eqb_spec d LF) as [->|_]; [|exact H0].
    rewrite splitlines_lf in IH. exact IH.
  - destruct (splitlines t) as [|l ls].
    + repeat constructor. exact Hc.
    + inversion IH; subst. constructor; [|assumption].
      constructor; assumption.
Qed.

(** A text of non-empty lines joined by LF splits back into them. *)
Lemma splitlines_line l rest :
  one_line l -> l <> [] ->
  splitlines (l ++ LF :: rest) = l :: splitlines rest.
Proof.
  intros Hl. induction Hl as [|c l Hc Hl IH]; [easy|]. intros _.
  cbn [app]. rewrite splitlines_cons, Hc.
  destruct l as [|c' l'].
  - cbn [app]. now rewrite splitlines_lf.
  - now rewrite IH.
Qed.

Lemma splitlines_last l : one_line l -> l <> [] -> splitlines l = [l].
Proof.
  intros Hl. induction Hl as [|c l Hc Hl IH]; [easy|]. intros _.
  rewrite splitlines_cons, Hc. destruct l as [|c' l']; [reflexivity|].
  now rewrite IH.
Qed.

Lemma join_cons sep l l' ls :
  join sep (l :: l' :: ls) = l ++ sep ++ join sep (l' :: ls).
Proof. reflexivity. Qed.

Lemma splitlines_join ls :
  Forall (fun l => l <> [] /\ one_line l) ls ->
  splitlines (join [LF] ls) = ls.
Proof.
  induction 1 as [|l ls [Hne Hl] H IH]; [reflexivity|].
  destruct ls as [|l' ls'].
  - now apply splitlines_last.
  - rewrite join_cons. change ([LF] ++ join [LF] (l' :: ls'))
      with (LF :: join [LF] (l' :: ls')).
    rewrite splitlines_line by assumption. f_equal. exact IH.
Qed.

Lemma find_join_None m ls :
  find m (join [LF] ls) = None -> Forall (fun l => find m l = None) ls.
Proof.
  induction ls as [|l ls IH]; [constructor|].
  destruct ls as [|l' ls'].
  - intros H. now repeat constructor.
  - rewrite join_cons. intros H. apply find_app_None in H.
    destruct H as [H1 H2]. apply find_app_None in H2.
    constructor; [exact H1|]. apply IH. now destruct H2.
Qed.

Lemma one_line_not_lf c : is_linebreak c = false -> c <> LF.
Proof. now intros H ->. Qed.

Lemma find_double_lf_app l rest :
  one_line l -> find [LF; LF] rest = None -> find [LF; LF] (l ++ rest) = None.
Proof.
  intros Hl Hr. induction Hl as [|c l Hc _ IH]; [exact Hr|].
  cbn [app]. rewrite find_cons, startswith_cons.
  destruct (N.eqb_spec LF c) as [E|_]; [subst c; discriminate Hc|].
  cbn [andb]. now rewrite IH.
Qed.

Lemma join_head l ls : l <> [] -> hd 0%N (join [LF] (l :: ls)) = hd 0%N l.
Proof. destruct l; [easy|]. intros _. now destruct ls. Qed.

Lemma last_app_ne (a b : str) d : b <> [] -> last (a ++ b) d = last b d.
Proof.
  intros Hb. rewrite (app_removelast_last d Hb), app_assoc.
  now rewrite !last_last.
Qed.

Lemma join_nonempty l ls : l <> [] -> join [LF] (l :: ls) <> [].
Proof. destruct l; [easy|]. intros _. now destruct ls. Qed.

Lemma last_in (l : str) d : l <> [] -> In (last l d) l.
Proof.
  intros H. rewrite (app_removelast_last d H) at 2.
  apply in_or_app. right. now left.
Qed.

Lemma join_last ls :
  Forall (fun l => l <> [] /\ one_line l) ls -> ls <> [] ->
  is_linebreak (last (join [LF] ls) 0%N) = false.
Proof.
  induction 1 as [|l ls [Hne Hl] H IH]; [easy|]. intros _.
  destruct ls as [|l' ls'].
  - cbn [join]. unfold one_line in Hl. rewrite Forall_forall in Hl.
    now apply Hl, last_in.
  - inversion H as [|? ? [Hne' _] _]; subst.
    rewrite join_cons, !last_app_ne.
    + now apply IH.
    + now apply join_nonempty.
    + discriminate.
Qed.

Lemma join_no_lf_head ls :
  Forall (fun l => l <> [] /\ one_line l) ls ->
  startswith [LF] (join [LF] ls) = false.
Proof.
  intros H. destruct H as [|l ls [Hne Hl] H]; [reflexivity|].
  destruct l as [|c l]; [easy|]. inversion Hl; subst.
  assert (join [LF] ((c :: l) :: ls) = c :: tl (join [LF] ((c :: l) :: ls)))
    as E by now destruct ls.
  rewrite E, startswith_single.
  destruct (N.eqb_spec LF c) as [E'|_]; [|reflexivity].
  subst c. discriminate.
Qed.

(** The joined text of non-empty lines without LF has no empty line and
    no newline at either end. *)
Lemma join_shape ls :
  Forall (fun l => l <> [] /\ one_line l) ls ->
  find [LF; LF] (join [LF] ls) = None /\
  startswith [LF] (join [LF] ls) = false /\
  forall r, join [LF] ls <> r ++ [LF].
Proof.
  intros H. split; [|split].
  - induction H as [|l ls [Hne Hl] H IH]; [reflexivity|].
    destruct ls as [|l' ls'].
    + cbn [join]. rewrite <- (app_nil_r l). now apply find_double_lf_app.
    + rewrite join_cons. apply find_double_lf_app; [exact Hl|].
      change ([LF] ++ join [LF] (l' :: ls'))
        with (LF :: join [LF] (l' :: ls')).
      rewrite find_cons, startswith_cons.
      rewrite N.eqb_refl, (join_no_lf_head _ H). cbn [andb].
      now rewrite IH.
  - now apply join_no_lf_head.
  - intros r E. destruct ls as [|l ls]; [now destruct r|].
    pose proof (join_last _ H ltac:(discriminate)) as HL.
    rewrite E, last_last in HL. discriminate HL.
Qed.

End Lines.

Section Placer.

Lemma is_directive_app buf c :
  buf <> [] -> is_directive (buf ++ c) = is_directive buf.
Proof. destruct buf; [easy|]. intros _. reflexivity. Qed.

Lemma is_directive_buffer buf c :
  is_directive buf = false -> is_directive c = false ->
  is_directive (buf ++ c) = false.
Proof.
  intros Hb Hc. destruct buf; [exact Hc|].
  now rewrite is_directive_app.
Qed.

Lemma nac_snoc out x :
  no_adjacent_code out ->
  (out = [] \/ is_directive (last out []) = true \/ is_directive x = true) ->
  no_adjacent_code (out ++ [x]).
Proof.
  induction out as [|a out IH]; intros H Hx; [now split|].
  destruct out as [|b out].
  - cbn. split; [|now split]. destruct Hx as [Hx|[Hx|Hx]]; [easy|now left|now right].
  - destruct H as [Hab H]. split; [exact Hab|].
    apply IH; [exact H|]. destruct Hx as [Hx|[Hx|Hx]]; [easy|now right; left|auto].
Qed.

Lemma tidy_app buf c : buf = [] \/ tidy buf -> tidy c -> tidy (buf ++ c).
Proof.
  intros [->|(Hne & Hh & Hl)] (Hne' & Hh' & Hl'); [now repeat split|].
  repeat split.
  - now destruct buf.
  - now destruct buf.
  - now rewrite last_app_ne.
Qed.

Lemma place_ok out buf c :
  placed_ok (out, buf) -> tidy c -> placed_ok (place out buf c).
Proof.
  intros (Ht & Hn & Hl & Hb) Hc. cbn [fst snd] in *.
  destruct (is_directive c) eqn:D.
  - rewrite place_directive by exact D. repeat split; cbn [fst snd].
    + apply Forall_app. split; [exact Ht|]. apply Forall_app. split.
      * destruct buf; cbn [flush]; [constructor|].
        destruct Hb as [Hb|[Hb _]]; [easy|].
        constructor; [exact Hb|constructor].
      * constructor; [exact Hc|constructor].
    + destruct buf as [|x buf]; cbn [flush app].
      * apply nac_snoc; [exact Hn|]. right; right; exact D.
      * change (out ++ [x :: buf; c]) with (out ++ [x :: buf] ++ [c]).
        rewrite app_assoc. apply nac_snoc; [|right; right; exact D].
        apply nac_snoc; [exact Hn|].
        destruct Hl as [Hl|Hl]; [now left|right; left; exact Hl].
    + right. rewrite !app_assoc. now rewrite last_last.
    + now left.
  - rewrite place_code by exact D. repeat split; cbn [fst snd]; auto.
    right. split.
    + apply tidy_app; [|exact Hc]. destruct Hb as [Hb|[Hb _]]; auto.
    + apply is_directive_buffer; [|exact D].
      destruct Hb as [->|[_ Hb]]; [reflexivity|exact Hb].
Qed.

Lemma places_ok cs ob :
  placed_ok ob -> Forall tidy cs -> placed_ok (places ob cs).
Proof.
  intros Hob H; revert ob Hob.
  induction H as [|c cs Hc _ IH]; intros [out buf] Hob; [exact Hob|].
  rewrite places_cons. apply IH. now apply place_ok.
Qed.

Lemma place_one_line out buf c :
  Forall one_line out -> one_line buf -> one_line c ->
  Forall one_line (fst (place out buf c)) /\ one_line (snd (place out buf c)).
Proof.
  intros Ho Hb Hc. unfold place.
  destruct (startswith [HASH] c); [|split; [exact Ho|now apply Forall_app]].
  destruct buf; cbn [fst snd]; (split; [|constructor]).
  - apply Forall_app. split; [exact Ho|]. constructor; [exact Hc|constructor].
  - apply Forall_app. split.
    + apply Forall_app. split; [exact Ho|].
      constructor; [exact Hb|constructor].
    + constructor; [exact Hc|constructor].
Qed.

Lemma places_one_line cs ob :
  Forall one_line (fst ob) -> one_line (snd ob) -> Forall one_line cs ->
  Forall one_line (fst (places ob cs)) /\ one_line (snd (places ob cs)).
Proof.
  intros Ho Hb H; revert ob Ho Hb.
  induction H as [|c cs Hc _ IH]; intros [out buf] Ho Hb; [now split|].
  rewrite places_cons. cbn [fst snd] in *.
  destruct (place_one_line out buf c Ho Hb Hc). now apply IH.
Qed.

(** The output lines of any input form a minified text. *)
Lemma format_lines_minified ls :
  Forall one_line ls -> minified (format_lines ls).
Proof.
  intros Hls. rewrite format_lines_places.
  pose proof (places_ok (code_lines false ls) ([], [])) as H.
  destruct H as (Ht & Hn & Hl & Hb).
  { repeat split; cbn; auto. }
  { apply code_lines_tidy. }
  destruct (places_one_line (code_lines false ls) ([], [])) as [Ho1 Ho2];
    [constructor|constructor|now apply code_lines_one_line|].
  destruct (places ([], []) (code_lines false ls)) as [out buf].
  cbn [fst snd] in *. destruct buf as [|x buf]; cbn [flush].
  - rewrite app_nil_r. now repeat split.
  - destruct Hb as [Hb|[Hb _]]; [easy|]. repeat split.
    + apply Forall_app. split; [exact Ht|].
      constructor; [exact Hb|constructor].
    + apply Forall_app. split; [exact Ho1|].
      constructor; [exact Ho2|constructor].
    + apply nac_snoc; [exact Hn|].
      destruct Hl as [Hl|Hl]; [now left|right; left; exact Hl].
Qed.

Lemma minified_lines ls :
  minified ls -> Forall (fun l => l <> [] /\ one_line l) ls.
Proof.
  intros (Ht & Ho & _). rewrite Forall_forall in *. intros l Hl.
  split; [apply Ht, Hl|apply Ho, Hl].
Qed.

End Placer.

(** C10.  For every input the output lines are non-empty and neither
    begin nor end with whitespace; they are the lines of the returned
    string, which therefore has no two newlines in a row and no newline
    at its beginning or end. *)
Theorem C10_output_lines_tidy :
  forall s,
    Forall tidy (format_lines (splitlines s)) /\
    splitlines (format_shader s) = format_lines (splitlines s) /\
    find [LF; LF] (format_shader s) = None /\
    startswith [LF] (format_shader s) = false /\
    (forall r, format_shader s <> r ++ [LF]).
Proof.
  intros s.
  pose proof (format_lines_minified _ (splitlines_one_line s)) as H.
  pose proof (minified_lines _ H) as Hl.
  destruct (join_shape _ Hl) as (H1 & H2 & H3).
  split; [apply H|]. split; [now apply splitlines_join|].
  now repeat split.
Qed.

(** * Directives *)

Section Directives.

Lemma filter_flush buf :
  is_directive buf = false -> filter is_directive (flush buf) = [].
Proof. intros H. destruct buf; [reflexivity|]. cbn [flush filter]. now rewrite H. Qed.

Lemma concat_flush buf : concat (flush buf) = buf.
Proof. destruct buf; [reflexivity|]. cbn [flush concat]. apply app_nil_r. Qed.

(** The directives of the output are the directive code lines, in order. *)
Lemma filter_places cs out buf :
  is_directive buf = false ->
  filter is_directive (fst (places (out, buf) cs)
                       ++ flush (snd (places (out, buf) cs)))
  = filter is_directive out ++ filter is_directive cs.
Proof.
  revert out buf; induction cs as [|c cs IH]; intros out buf Hb.
  - cbn [places fold_left fst snd]. rewrite filter_app, filter_flush by exact Hb.
    reflexivity.
  - rewrite places_cons. cbn [fst snd filter].
    destruct (is_directive c) eqn:D.
    + rewrite place_directive by exact D. rewrite IH by reflexivity.
      rewrite !filter_app, filter_flush by exact Hb.
      cbn [filter]. rewrite D. cbn [app]. now rewrite <- app_assoc.
    + rewrite place_code by exact D.
      now rewrite IH by (now apply is_directive_buffer).
Qed.

(** The output is the code lines, in order, with nothing lost or added. *)
Lemma concat_places cs out buf :
  concat (fst (places (out, buf) cs) ++ flush (snd (places (out, buf) cs)))
  = concat out ++ buf ++ concat cs.
Proof.
  revert out buf; induction cs as [|c cs IH]; intros out buf.
  - cbn [places fold_left fst snd concat].
    now rewrite concat_app, concat_flush, app_nil_r.
  - rewrite places_cons. cbn [fst snd concat].
    destruct (is_directive c) eqn:D.
    + rewrite place_directive by exact D. rewrite IH.
      rewrite !concat_app, concat_flush. cbn [concat app].
      now rewrite app_nil_r, <- !app_assoc.
    + rewrite place_code by exact D. rewrite IH. now rewrite <- !app_assoc.
Qed.

Lemma is_directive_code_of x t :
  is_space x = false -> startswith line_marker (x :: t) = false ->
  is_directive (code_of (x :: t)) = is_directive (x :: t).
Proof.
  intros Hx Hm. rewrite code_of_head by assumption.
  unfold is_directive. now rewrite !startswith_single.
Qed.

End Directives.

(** * Minifying a minified text *)

Section Idempotence.

(** A tidy line without comment markers is its own code line. *)
Lemma scan_tidy_line l :
  tidy l -> find line_marker l = None -> find open_marker l = None ->
  scan false l = (Some l, false).
Proof.
  intros (Hne & Hh & Hl) Hm Ho. destruct l as [|x t]; [easy|].
  cbn [hd] in Hh. unfold scan, leave_comment.
  rewrite (enter_comment_none _ Ho). unfold strip.
  rewrite (lstrip_id _ _ Hh).
  rewrite (rstrip_id (x :: t) 0%N) by assumption.
  pose proof (find_None_skipn _ _ 0 Hm) as Hs. cbn [skipn] in Hs.
  rewrite Hs, code_of_cut, (cut_no_marker _ _ Hm).
  now rewrite (rstrip_id (x :: t) 0%N) by assumption.
Qed.

Lemma code_lines_tidy_lines ls :
  Forall tidy ls ->
  Forall (fun l => find line_marker l = None /\ find open_marker l = None) ls ->
  code_lines false ls = ls.
Proof.
  intros Ht Hm. induction Ht as [|l ls Hl _ IH]; [reflexivity|].
  inversion Hm as [|? ? [H1 H2] Hm']; subst.
  cbn [code_lines]. rewrite (scan_tidy_line _ Hl H1 H2). f_equal.
  now apply IH.
Qed.

(** The placer leaves alone a text already in minified shape. *)
Lemma places_minified ls out buf :
  Forall tidy ls -> no_adjacent_code ls ->
  (buf = [] \/ ls = [] \/ is_directive (hd [] ls) = true) ->
  fst (places (out, buf) ls) ++ flush (snd (places (out, buf) ls))
  = out ++ flush buf ++ ls.
Proof.
  intros Ht; revert out buf.
  induction Ht as [|c r Hc _ IH]; intros out buf Hn Hb.
  - cbn [places fold_left fst snd]. now rewrite app_nil_r.
  - rewrite places_cons. cbn [fst snd]. destruct Hn as [Hcr Hn].
    destruct (is_directive c) eqn:D.
    + rewrite place_directive by exact D.
      rewrite IH by (auto). cbn [flush app]. now rewrite <- !app_assoc.
    + assert (buf = []) as ->.
      { destruct Hb as [Hb|[Hb|Hb]]; [exact Hb|easy|].
        cbn [hd] in Hb. congruence. }
      rewrite place_code by exact D. cbn [app].
      rewrite IH.
      * destruct c as [|x c]; [now destruct Hc|]. reflexivity.
      * exact Hn.
      * right. destruct r as [|b r]; [now left|right].
        cbn [hd]. destruct Hcr as [Hcr|Hcr]; [congruence|exact Hcr].
Qed.

Lemma format_lines_minified_id ls :
  minified ls ->
  Forall (fun l => find line_marker l = None /\ find open_marker l = None) ls ->
  format_lines ls = ls.
Proof.
  intros (Ht & _ & Hn) Hm. rewrite format_lines_places.
  rewrite (code_lines_tidy_lines _ Ht Hm).
  rewrite places_minified by auto. reflexivity.
Qed.

End Idempotence.

(** C7, as the code has it.  A text made of minified lines (non-empty,
    without line boundary inside, neither beginning nor ending with
    whitespace, no two neighbours both plain code) joined by single
    newlines, and holding neither [//] nor a block-comment start, is
    returned unchanged; hence minifying twice gives the same as
    minifying once whenever the first result holds no comment marker. *)
Theorem C7_idempotent_on_minified :
  (forall ls,
      minified ls ->
      Forall (fun l => find line_marker l = None /\ find open_marker l = None)
             ls ->
      format_shader (join [LF] ls) = join [LF] ls)
  /\ (forall s,
         find line_marker (format_shader s) = None ->
         find open_marker (format_shader s) = None ->
         format_shader (format_shader s) = format_shader s).
Proof.
  assert (forall ls,
      minified ls ->
      Forall (fun l => find line_marker l = None /\ find open_marker l = None)
             ls ->
      format_shader (join [LF] ls) = join [LF] ls) as Hfix.
  { intros ls Hmin Hm. unfold format_shader.
    rewrite (splitlines_join _ (minified_lines _ Hmin)).
    now rewrite format_lines_minified_id. }
  split; [exact Hfix|].
  intros s H1 H2. unfold format_shader at 2 3.
  apply Hfix.
  - apply format_lines_minified, splitlines_one_line.
  - apply find_join_None in H1. apply find_join_None in H2.
    rewrite Forall_forall in *. intros l Hl. split; auto.
Qed.

Lemma C7_witness :
  format_shader (nl (lit "#version 330") (lit "void main(){}"))
  = nl (lit "#version 330") (lit "void main(){}").
Proof.
  destruct C7_idempotent_on_minified as [H _].
  apply (H [lit "#version 330"; lit "void main(){}"]).
  - split; [|split].
    + repeat constructor; discriminate.
    + repeat constructor.
    + cbn. auto.
  - repeat constructor.
Defined.

(** C7 as stated fails: a line of code with leading whitespace meets the
    four conditions and is not returned unchanged. *)
Lemma C7_counterexample :
  ~ (forall s, already_minified s -> format_shader s = s).
Proof.
  intros H. specialize (H (lit " a")).
  assert (already_minified (lit " a")) as Hm.
  { split; [split; reflexivity|]. split; [|split].
    - constructor; [|constructor]. intros Hin. exfalso.
      repeat (destruct Hin as [E|Hin]; [discriminate E|]). exact Hin.
    - constructor; [|constructor]. intros Hb. inversion Hb as [|? ? _ Hb'].
      inversion Hb' as [|? ? Hc _]. discriminate Hc.
    - cbn. auto. }
  specialize (H Hm). vm_compute in H. discriminate H.
Qed.


(** * Line boundaries *)

Section Boundaries.

Lemma splitlines_boundary a c b :
  one_line a -> is_linebreak c = true ->
  (c = CR -> forall b', b <> LF :: b') ->
  splitlines (a ++ c :: b) = a :: splitlines b.
Proof.
  intros Ha Hc Hb. induction Ha as [|x a Hx _ IH].
  - cbn [app]. rewrite splitlines_cons, Hc.
    destruct (N.eqb_spec c CR) as [E|_]; [|reflexivity].
    destruct b as [|d b']; [reflexivity|].
    destruct (N.eqb_spec d LF) as [->|_]; [|reflexivity].
    now destruct (Hb E b').
  - cbn [app]. now rewrite splitlines_cons, Hx, IH.
Qed.

Lemma splitlines_crlf a b :
  one_line a -> splitlines (a ++ CR :: LF :: b) = a :: splitlines b.
Proof.
  intros Ha. induction Ha as [|x a Hx _ IH]; [reflexivity|].
  cbn [app]. now rewrite splitlines_cons, Hx, IH.
Qed.

Lemma lines_lf_crlf_cons c t :
  lines_lf_crlf (c :: t) =
  if (c =? LF)%N then [] :: lines_lf_crlf t
  else
    match t with
    | d :: t' =>
        if ((c =? CR) && (d =? LF))%N then [] :: lines_lf_crlf t'
        else match lines_lf_crlf t with
             | [] => [[c]]
             | l :: ls => (c :: l) :: ls
             end
    | [] => [[c]]
    end.
Proof. reflexivity. Qed.

Lemma splitlines_only_lf_crlf s :
  only_lf_crlf s -> splitlines s = lines_lf_crlf s.
Proof.
  induction s as [|c t IH]; [reflexivity|]. intros [Hc Ht].
  specialize (IH Ht). rewrite splitlines_cons, lines_lf_crlf_cons.
  destruct (is_linebreak c) eqn:B.
  - destruct (Hc eq_refl) as [->|[-> [t' ->]]].
    + cbn [N.eqb LF CR Pos.eqb]. now rewrite IH.
    + cbn [N.eqb LF CR Pos.eqb andb].
      rewrite splitlines_lf, lines_lf_crlf_cons in IH.
      cbn [N.eqb LF Pos.eqb] in IH. exact IH.
  - destruct (N.eqb_spec c LF) as [->|_]; [discriminate B|].
    destruct (N.eqb_spec c CR) as [->|_]; [discriminate B|].
    cbn [andb]. rewrite IH. destruct t as [|d t']; reflexivity.
Qed.

End Boundaries.

(** C9, as the code has it.  The input is split at every line boundary
    of [str.splitlines]: no line holds a boundary character, each
    boundary character ends a line (a CR and the LF right after it count
    as one boundary), so a lone CR, VT, FF, FS, GS, RS, NEL, LS or PS
    splits as well.  On a text whose only boundaries are LF and CR LF the
    lines are those of the split at LF and CR LF. *)
Theorem C9_line_boundaries :
  (forall s, Forall one_line (splitlines s))
  /\ (forall a c b,
         one_line a -> is_linebreak c = true ->
         (c = CR -> forall b', b <> LF :: b') ->
         splitlines (a ++ c :: b) = a :: splitlines b)
  /\ (forall a b,
         one_line a -> splitlines (a ++ CR :: LF :: b) = a :: splitlines b)
  /\ (forall s, only_lf_crlf s -> splitlines s = lines_lf_crlf s).
Proof.
  split; [exact splitlines_one_line|].
  split; [exact splitlines_boundary|].
  split; [exact splitlines_crlf|exact splitlines_only_lf_crlf].
Qed.

Lemma C9_witness :
  splitlines (lit "#a" ++ 12%N :: lit "#b") = [lit "#a"; lit "#b"]
  /\ splitlines (lit "a" ++ CR :: LF :: lit "b")
     = lines_lf_crlf (lit "a" ++ CR :: LF :: lit "b").
Proof.
  destruct C9_line_boundaries as (_ & H2 & _ & H4). split.
  - assert (one_line (lit "#a")) as Ha by (repeat constructor).
    assert (12%N = CR -> forall b', lit "#b" <> LF :: b') as Hb
      by discriminate.
    exact (H2 (lit "#a") 12%N (lit "#b") Ha eq_refl Hb).
  - apply H4. cbn [only_lf_crlf lit map list_ascii_of_string app].
    split; [intros B; vm_compute in B; discriminate B|].
    split; [intros _; right; split; [reflexivity|now exists (lit "b")]|].
    split; [intros _; now left|].
    split; [intros B; vm_compute in B; discriminate B|exact I].
Defined.

(** C9 as stated fails: a form feed is a line boundary as well, and two
    directives that it separates come out as two lines. *)
Lemma C9_counterexample :
  ~ (forall s, splitlines s = lines_lf_crlf s)
  /\ format_shader (lit "#a" ++ 12%N :: lit "#b") = nl (lit "#a") (lit "#b").
Proof.
  split; [|reflexivity].
  intros H. specialize (H (lit "#a" ++ 12%N :: lit "#b")).
  vm_compute in H. discriminate H.
Qed.

(** * The scanner against the character-level reading of comments *)

Section Lexical.

Lemma pair_eta (A B : Type) (p : A * B) : p = (fst p, snd p).
Proof. now destruct p. Qed.

Lemma find_cons_None sub c t :
  find sub (c :: t) = None ->
  startswith sub (c :: t) = false /\ find sub t = None.
Proof.
  rewrite find_cons. destruct (startswith sub (c :: t)); [easy|].
  now destruct (find sub t).
Qed.

Lemma find_cons_S sub c t i :
  find sub (c :: t) = Some (S i) ->
  startswith sub (c :: t) = false /\ find sub t = Some i.
Proof.
  rewrite find_cons. destruct (startswith sub (c :: t)); [easy|].
  destruct (find sub t); [|easy]. cbn. now intros [= ->].
Qed.

Lemma find_cons_0 sub c t :
  find sub (c :: t) = Some 0 -> startswith sub (c :: t) = true.
Proof.
  rewrite find_cons. destruct (startswith sub (c :: t)); [easy|].
  now destruct (find sub t).
Qed.

Lemma startswith_two a b s :
  startswith [a; b] s = true -> exists t, s = a :: b :: t.
Proof.
  intros H. apply startswith_inv in H. cbn [app] in H.
  now exists (skipn (length [a; b]) s).
Qed.

(** Inside a block comment the reading resumes after the first end
    marker. *)
Lemma visible_inside l :
  visible true l =
  match find close_marker l with
  | Some e => visible false (skipn (e + 2) l)
  | None => ([], true)
  end.
Proof.
  induction l as [|c t IH]; [reflexivity|].
  rewrite find_cons. cbn [visible].
  destruct (startswith close_marker (c :: t)) eqn:E.
  - destruct (startswith_two _ _ _ E) as [t' [= -> ->]]. reflexivity.
  - rewrite IH. now destruct (find close_marker t).
Qed.

(** Outside a block comment, on a line without start marker, the
    visible text is the line cut at its first [//]. *)
Lemma visible_no_open l :
  find open_marker l = None -> visible false l = (cut line_marker l, false).
Proof.
  induction l as [|c t IH]; [reflexivity|]. intros H.
  destruct (find_cons_None _ _ _ H) as [O Ht]. cbn [visible].
  destruct (startswith line_marker (c :: t)) eqn:L.
  - unfold cut. now rewrite find_cons, L.
  - now rewrite O, (IH Ht), (cut_cons _ _ _ L).
Qed.

(** Outside a block comment, when no [//] comes before the first start
    marker, the visible text is what precedes the marker, followed by
    what is visible after it. *)
Lemma visible_open l i :
  find open_marker l = Some i ->
  find line_marker (firstn (i + 1) l) = None ->
  visible false l =
  (firstn i l ++ fst (visible true (skipn (i + 2) l)),
   snd (visible true (skipn (i + 2) l))).
Proof.
  revert i; induction l as [|c t IH]; intros i H L.
  - now rewrite find_nil in H.
  - destruct i as [|i].
    + apply find_cons_0 in H.
      destruct (startswith_two _ _ _ H) as [t' [= -> ->]].
      cbn [visible firstn skipn app Nat.add].
      change (startswith line_marker (SLASH :: STAR :: t')) with false.
      change (startswith open_marker (SLASH :: STAR :: t')) with true.
      cbn iota. apply pair_eta.
    + destruct (find_cons_S _ _ _ _ H) as [O Ht].
      cbn [Nat.add firstn] in L.
      destruct (find_cons_None _ _ _ L) as [L0 Lt].
      assert (startswith line_marker (c :: t) = false) as L1.
      { destruct (startswith line_marker (c :: t)) eqn:E; [|reflexivity].
        apply (startswith_firstn_ge _ _ (S (i + 1))) in E;
          [|cbn; lia].
        cbn [firstn] in E. congruence. }
      cbn [visible]. rewrite L1, O, (IH i Ht Lt). reflexivity.
Qed.

Lemma find_line_blank ws : blank ws -> find line_marker (ws ++ [SLASH]) = None.
Proof.
  induction 1 as [|c ws Hc _ IH]; [reflexivity|].
  cbn [app]. rewrite find_cons, IH. unfold line_marker.
  rewrite startswith_cons.
  destruct (N.eqb_spec SLASH c) as [<-|_]; [discriminate Hc|reflexivity].
Qed.

(** Cutting at the first [//] leaves alone a prefix that holds none,
    not even astride its end. *)
Lemma cut_app a b :
  find line_marker (a ++ [SLASH]) = None ->
  cut line_marker (a ++ b) = a ++ cut line_marker b.
Proof.
  induction a as [|c a IH]; [reflexivity|]. cbn [app]. intros H.
  destruct (find_cons_None _ _ _ H) as [H0 Ha].
  rewrite cut_cons, (IH Ha); [reflexivity|].
  unfold line_marker in *. rewrite startswith_cons in *.
  destruct (SLASH =? c)%N; [|reflexivity]. cbn [andb] in *.
  destruct a as [|d a]; [discriminate H0|].
  cbn [app] in *. now rewrite startswith_single in *.
Qed.

(** Lines 59-63 strip the line cut at its first [//]. *)
Lemma code_line_of_cut l : code_line_of l = stripped (cut line_marker l).
Proof.
  destruct (lstrip_split l) as (ws & Hws & E).
  unfold code_line_of, stripped, strip.
  remember (lstrip l) as m eqn:Hm. rewrite E.
  rewrite (cut_app _ _ (find_line_blank _ Hws)), (lstrip_app_blank _ _ Hws).
  destruct m as [|x t]; [reflexivity|].
  assert (is_space x = false) as Hx
    by (symmetry in Hm; exact (lstrip_head _ _ _ Hm)).
  rewrite (rstrip_cons _ _ Hx).
  destruct (startswith line_marker (x :: t)) eqn:L.
  - unfold cut. now rewrite find_cons, L.
  - rewrite (cut_cons _ _ _ L), (lstrip_id _ _ Hx), (rstrip_cons _ _ Hx).
    now rewrite (code_of_head _ _ Hx L).
Qed.

Lemma scan_outside l :
  scan false l =
  (code_line_of (fst (enter_comment l)), snd (enter_comment l)).
Proof.
  unfold scan, leave_comment, code_line_of.
  now destruct (enter_comment l).
Qed.

Lemma scan_inside l :
  scan true l =
  match find close_marker l with
  | Some e => scan false (skipn (e + 2) l)
  | None => (None, true)
  end.
Proof.
  unfold scan, leave_comment. now destruct (find close_marker l).
Qed.

Lemma firstn_succ l i :
  find open_marker l = Some i -> firstn (i + 1) l = firstn i l ++ [SLASH].
Proof.
  intros H. pose proof (find_Some_bound _ _ _ H) as Hb.
  pose proof (find_Some_split _ _ _ H) as E.
  rewrite E at 1. rewrite firstn_app, length_firstn.
  replace (i + 1 - Nat.min i (length l)) with 1 by lia.
  rewrite firstn_firstn. now replace (Nat.min (i + 1) i) with i by lia.
Qed.

Lemma firstn_succ_marker a m l k :
  find (a :: m) l = Some k -> firstn (k + 1) l = firstn k l ++ [a].
Proof.
  intros H. pose proof (find_Some_bound _ _ _ H) as Hb.
  cbn [length] in Hb.
  pose proof (find_Some_split _ _ _ H) as E.
  rewrite E at 1. rewrite firstn_app, length_firstn.
  replace (k + 1 - Nat.min k (length l)) with 1 by lia.
  rewrite firstn_firstn. now replace (Nat.min (k + 1) k) with k by lia.
Qed.

Lemma find_firstn_succ_None sub s k :
  find sub s = Some k -> 2 <= length sub ->
  find sub (firstn (k + 1) s) = None.
Proof.
  intros H Hl. apply find_None_intro. intros j.
  destruct (startswith sub (skipn j (firstn (k + 1) s))) eqn:E;
    [|reflexivity].
  pose proof (startswith_length _ _ E) as L.
  rewrite length_skipn, length_firstn in L.
  rewrite skipn_firstn_comm in E. apply startswith_firstn in E.
  assert (j < k) as Hj by lia.
  rewrite (find_Some_lowest _ _ _ _ H Hj) in E. discriminate E.
Qed.

(** Outside a block comment, a [//] that comes before every start marker
    hides the rest of the line. *)
Lemma visible_line_first r k :
  find line_marker r = Some k ->
  (forall i, find open_marker r = Some i -> k < i) ->
  visible false r = (firstn k r, false).
Proof.
  revert k; induction r as [|c t IH]; intros k L O.
  - now rewrite find_nil in L.
  - destruct k as [|k].
    + apply find_cons_0 in L. cbn [visible]. now rewrite L.
    + destruct (find_cons_S _ _ _ _ L) as [L0 Lt].
      assert (startswith open_marker (c :: t) = false) as O0.
      { destruct (startswith open_marker (c :: t)) eqn:E; [|reflexivity].
        assert (find open_marker (c :: t) = Some 0) as F
          by (now rewrite find_cons, E).
        apply O in F. lia. }
      cbn [visible]. rewrite L0, O0, (IH k Lt); [reflexivity|].
      intros i Hi.
      assert (find open_marker (c :: t) = Some (S i)) as F
        by (now rewrite find_cons, O0, Hi).
      apply O in F. lia.
Qed.

Lemma visible_hidden r :
  hidden_open r = true -> visible false r = (cut line_marker r, false).
Proof.
  unfold hidden_open. destruct (find open_marker r) as [i|] eqn:O;
    [|intros _; now apply visible_no_open].
  unfold cut. destruct (find line_marker r) as [k|] eqn:L; [|discriminate].
  intros H. apply Nat.ltb_lt in H. apply visible_line_first; [exact L|].
  intros i' Hi'. rewrite O in Hi'. injection Hi' as <-. exact H.
Qed.

(** A [//] found just where a prefix without [//] ends on a [/]. *)
Lemma find_line_glue a b :
  find line_marker (a ++ [SLASH]) = None ->
  find line_marker (a ++ SLASH :: SLASH :: b) = Some (length a).
Proof.
  induction a as [|c a IH]; [reflexivity|]. cbn [app length]. intros H.
  destruct (find_cons_None _ _ _ H) as [H0 Ha].
  rewrite find_cons, (IH Ha).
  assert (startswith line_marker (c :: a ++ SLASH :: SLASH :: b) = false)
    as ->; [|reflexivity].
  unfold line_marker in *. rewrite startswith_cons in *.
  destruct (SLASH =? c)%N; [|reflexivity]. cbn [andb] in *.
  destruct a as [|d a]; [discriminate H0|].
  cbn [app] in *. now rewrite startswith_single in *.
Qed.

(** The line with its first block comment removed, cut at its first
    [//], when that [//] comes before the comment. *)
Lemma cut_in_comment t i k r :
  find line_marker t = Some k -> k + 2 <= i -> i <= length t ->
  cut line_marker (firstn i t ++ r) = firstn k t.
Proof.
  intros L Hk Hi.
  assert (find line_marker (firstn i t) = Some k) as L'
    by (apply find_firstn_Some; [exact L|exact Hk]).
  unfold cut. rewrite (find_app_Some _ _ r _ L').
  rewrite firstn_app, firstn_firstn, length_firstn.
  replace (k - Nat.min i (length t)) with 0 by lia.
  replace (Nat.min k i) with k by lia. apply app_nil_r.
Qed.

Lemma cut_glued t k r :
  find line_marker t = Some k ->
  cut line_marker (firstn (k + 1) t ++ SLASH :: r) = firstn k t.
Proof.
  intros L. pose proof (find_Some_bound _ _ _ L) as Hb.
  assert (find line_marker (firstn k t ++ [SLASH]) = None) as N.
  { rewrite <- (firstn_succ_marker SLASH [SLASH] t k L).
    apply find_firstn_succ_None; [exact L|reflexivity]. }
  rewrite (firstn_succ_marker SLASH [SLASH] t k L), <- app_assoc.
  cbn [app]. unfold cut. rewrite (find_line_glue _ r N).
  rewrite firstn_app, firstn_all, Nat.sub_diag. cbn [firstn].
  apply app_nil_r.
Qed.

(** On a readable text met outside a block comment, the scanner computes
    the stripped visible text and the state of the reference reading. *)
Lemma scan_readable_text t :
  readable_text t = true ->
  scan false t = (stripped (fst (visible false t)), snd (visible false t)).
Proof.
  unfold readable_text. intros H. rewrite scan_outside.
  destruct (find open_marker t) as [i|] eqn:O.
  2: { rewrite (enter_comment_none _ O), (visible_no_open _ O).
       cbn [fst snd]. now rewrite code_line_of_cut. }
  pose proof (find_Some_bound _ _ _ O) as Hi.
  cbn [length open_marker] in Hi.
  pose proof (firstn_succ _ _ O) as F.
  destruct (find line_marker (firstn (i + 1) t)) as [k|] eqn:L.
  - destruct (find_from close_marker t (i + 2)) as [j|] eqn:C;
      [|discriminate H].
    assert (find line_marker t = Some k) as Lt.
    { rewrite <- (firstn_skipn (i + 1) t). now apply find_app_Some. }
    pose proof (find_Some_bound _ _ _ L) as Hk.
    rewrite length_firstn in Hk. cbn [length line_marker] in Hk.
    assert (visible false t = (firstn k t, false)) as V.
    { apply visible_line_first; [exact Lt|].
      intros i' Hi'. rewrite O in Hi'. injection Hi' as <-. lia. }
    rewrite V, (enter_comment_pair _ _ _ O C). cbn [fst snd].
    rewrite code_line_of_cut. f_equal. f_equal.
    destruct (Nat.le_gt_cases (k + 2) i) as [Hle|Hgt];
      [apply cut_in_comment; [exact Lt|exact Hle|lia]|].
    apply orb_true_iff in H. destruct H as [H|H];
      [apply Nat.leb_le in H; lia|].
    assert (i = k + 1) as -> by lia.
    destruct (skipn (j + 2) t) as [|c r] eqn:R; [discriminate H|].
    rewrite startswith_single in H. apply N.eqb_eq in H. subst c.
    now apply cut_glued.
  - rewrite (visible_open _ _ O L), visible_inside.
    unfold enter_comment. rewrite O. unfold find_from in *.
    destruct (find close_marker (skipn (i + 2) t)) as [e|] eqn:C;
      cbn [option_map fst snd] in *.
    + rewrite skipn_skipn.
      replace (i + 2 + e + 2) with (e + 2 + (i + 2)) in * by lia.
      rewrite (visible_hidden _ H). cbn [fst snd].
      rewrite code_line_of_cut, cut_app; [reflexivity|].
      now rewrite <- F.
    + rewrite app_nil_r, code_line_of_cut, cut_no_marker; [reflexivity|].
      rewrite F in L. now apply find_app_None in L.
Qed.

Lemma scan_readable inside l :
  readable inside l = true ->
  scan inside l = (stripped (fst (visible inside l)), snd (visible inside l)).
Proof.
  unfold readable, leave_comment. destruct inside;
    [|now apply scan_readable_text].
  rewrite scan_inside, visible_inside.
  destruct (find close_marker l) as [e|]; [|reflexivity].
  now apply scan_readable_text.
Qed.

(** On readable lines the code lines are the stripped comment-free
    texts. *)
Lemma code_lines_clean ls inside :
  readable_lines inside ls = true ->
  code_lines inside ls = clean_lines inside ls.
Proof.
  revert inside; induction ls as [|l ls IH]; intros inside H;
    [reflexivity|].
  cbn [readable_lines] in H. apply andb_true_iff in H.
  destruct H as [Hl Hls].
  cbn [code_lines clean_lines]. rewrite (scan_readable inside _ Hl).
  cbn [snd] in IH.
  destruct (stripped (fst (visible inside l))); now rewrite (IH _ Hls).
Qed.

End Lexical.


Section Subsequences.

Lemma subseq_refl a : subseq a a.
Proof. induction a; [apply subseq_nil|now apply subseq_keep]. Qed.

Lemma subseq_nil_l b : subseq [] b.
Proof. induction b; [apply subseq_nil|now apply subseq_skip]. Qed.

Lemma subseq_app a a' b b' :
  subseq a a' -> subseq b b' -> subseq (a ++ b) (a' ++ b').
Proof.
  intros Ha Hb. induction Ha; cbn [app];
    [exact Hb|now apply subseq_skip|now apply subseq_keep].
Qed.

Lemma subseq_length a b : subseq a b -> length a <= length b.
Proof. induction 1; cbn [length]; lia. Qed.

Lemma subseq_trans a b c : subseq a b -> subseq b c -> subseq a c.
Proof.
  intros Hab Hbc; revert a Hab.
  induction Hbc as [|b c0 c Hbc IH|b c0 c Hbc IH]; intros a Hab.
  - exact Hab.
  - apply subseq_skip. now apply IH.
  - inversion Hab; subst.
    + apply subseq_skip. now apply IH.
    + apply subseq_keep. now apply IH.
Qed.

Lemma subseq_strip s : subseq (strip s) s.
Proof.
  unfold strip. apply subseq_trans with (b := lstrip s).
  - destruct (rstrip_split (lstrip s)) as (ws & _ & E).
    rewrite E at 2. rewrite <- (app_nil_r (rstrip (lstrip s))) at 1.
    apply subseq_app; [apply subseq_refl|apply subseq_nil_l].
  - destruct (lstrip_split s) as (ws & _ & E).
    rewrite E at 2. change (lstrip s) with ([] ++ lstrip s) at 1.
    apply subseq_app; [apply subseq_nil_l|apply subseq_refl].
Qed.

(** The clean lines are made of comment-free text only. *)
Lemma clean_lines_subseq ls inside :
  subseq (concat (clean_lines inside ls)) (comment_free_text inside ls).
Proof.
  revert inside; induction ls as [|l ls IH]; intros inside; [constructor|].
  cbn [clean_lines comment_free_text]. unfold stripped.
  pose proof (subseq_strip (fst (visible inside l))) as H.
  destruct (strip (fst (visible inside l))) as [|x c].
  - change (concat (clean_lines (snd (visible inside l)) ls))
      with ([] ++ concat (clean_lines (snd (visible inside l)) ls)).
    apply subseq_app; [apply subseq_nil_l|apply IH].
  - cbn [concat]. apply subseq_app; [exact H|apply IH].
Qed.

End Subsequences.

Section Tracking.

Lemma find_skipn_Some sub s e n :
  find sub s = Some e -> n <= e -> find sub (skipn n s) = Some (e - n).
Proof.
  intros H Hn. destruct (find_Some_startswith _ _ _ H) as [H1 H2].
  apply find_Some_intro.
  - rewrite skipn_skipn. now replace (e - n + n) with e by lia.
  - rewrite length_skipn. lia.
  - intros j Hj. rewrite skipn_skipn.
    apply (find_Some_lowest _ _ _ _ H). lia.
Qed.

(** A prefix that holds no comment marker, not even astride its end, is
    visible as it is. *)
Lemma visible_plain_prefix n l :
  find line_marker (firstn (n + 1) l) = None ->
  find open_marker (firstn (n + 1) l) = None ->
  visible false l =
  (firstn n l ++ fst (visible false (skipn n l)),
   snd (visible false (skipn n l))).
Proof.
  revert l; induction n as [|n IH]; intros l HL HO.
  - cbn [firstn skipn app]. apply pair_eta.
  - destruct l as [|c t]; [reflexivity|].
    cbn [Nat.add firstn] in HL, HO.
    destruct (find_cons_None _ _ _ HL) as [L0 Lt].
    destruct (find_cons_None _ _ _ HO) as [O0 Ot].
    assert (startswith line_marker (c :: t) = false) as L1.
    { destruct (startswith line_marker (c :: t)) eqn:E; [|reflexivity].
      apply (startswith_firstn_ge _ _ (S (n + 1))) in E; [|cbn; lia].
      cbn [firstn] in E. congruence. }
    assert (startswith open_marker (c :: t) = false) as O1.
    { destruct (startswith open_marker (c :: t)) eqn:E; [|reflexivity].
      apply (startswith_firstn_ge _ _ (S (n + 1))) in E; [|cbn; lia].
      cbn [firstn] in E. congruence. }
    cbn [visible firstn skipn app]. rewrite L1, O1, (IH t Lt Ot).
    reflexivity.
Qed.

Lemma subseq_stripped v : subseq (code_text (stripped v)) v.
Proof.
  unfold stripped. pose proof (subseq_strip v) as H.
  destruct (strip v); [apply subseq_nil_l|exact H].
Qed.

Lemma subseq_app_r a p b : subseq a b -> subseq a (p ++ b).
Proof.
  intros H. change a with ([] ++ a).
  apply subseq_app; [apply subseq_nil_l|exact H].
Qed.

(** A text met with both readings outside a block comment. *)
Lemma track_text_sound t tr :
  track_text t = Some tr ->
  fst (scan false t) = stripped (fst (visible false t)) /\
  snd (scan false t) = scanner_inside tr /\
  snd (visible false t) = reference_inside tr.
Proof.
  unfold track_text. intros H.
  destruct (find open_marker t) as [i|] eqn:O.
  2: { injection H as <-.
       assert (readable_text t = true) as R
         by (unfold readable_text; now rewrite O).
       rewrite (scan_readable_text _ R). cbn [fst snd].
       rewrite (visible_no_open _ O). now split. }
  pose proof (find_Some_bound _ _ _ O) as Hi.
  cbn [length open_marker] in Hi.
  destruct (find line_marker (firstn (i + 1) t)) as [k|] eqn:L;
    destruct (find_from close_marker t (i + 2)) as [j|] eqn:C.
  - destruct ((k + 2 <=? i) || startswith [SLASH] (skipn (j + 2) t))
      eqn:G; [|discriminate H].
    injection H as <-.
    assert (readable_text t = true) as R
      by (unfold readable_text; now rewrite O, L, C).
    pose proof (scan_readable_text _ R) as S.
    rewrite scan_outside, (enter_comment_pair _ _ _ O C) in S.
    cbn [fst snd] in S. injection S as S1 S2.
    rewrite scan_outside, (enter_comment_pair _ _ _ O C). cbn [fst snd].
    rewrite <- S2. now split.
  - destruct (k + 2 <=? i) eqn:G; [|discriminate H]. injection H as <-.
    apply Nat.leb_le in G.
    assert (find line_marker t = Some k) as Lt.
    { rewrite <- (firstn_skipn (i + 1) t). now apply find_app_Some. }
    assert (visible false t = (firstn k t, false)) as V.
    { apply visible_line_first; [exact Lt|].
      intros i' Hi'. rewrite O in Hi'. injection Hi' as <-. lia. }
    rewrite V, scan_outside, (enter_comment_open _ _ O C).
    cbn [fst snd scanner_inside reference_inside].
    split; [|now split]. rewrite code_line_of_cut. f_equal.
    rewrite <- (app_nil_r (firstn i t)).
    apply cut_in_comment; [exact Lt|exact G|lia].
  - destruct (hidden_open (skipn (j + 2) t)) eqn:G; [|discriminate H].
    injection H as <-.
    assert (readable_text t = true) as R
      by (unfold readable_text; now rewrite O, L, C).
    pose proof (scan_readable_text _ R) as S.
    rewrite scan_outside, (enter_comment_pair _ _ _ O C) in S.
    cbn [fst snd] in S. injection S as S1 S2.
    rewrite scan_outside, (enter_comment_pair _ _ _ O C). cbn [fst snd].
    rewrite <- S2. now split.
  - injection H as <-.
    assert (readable_text t = true) as R
      by (unfold readable_text; now rewrite O, L, C).
    pose proof (scan_readable_text _ R) as S.
    rewrite scan_outside, (enter_comment_open _ _ O C) in S.
    cbn [fst snd] in S. injection S as S1 S2.
    rewrite scan_outside, (enter_comment_open _ _ O C). cbn [fst snd].
    rewrite <- S2. now split.
Qed.

Lemma scan_silent r : silent r = true -> scan false r = (None, false).
Proof.
  unfold silent. destruct (find open_marker r) eqn:O; [discriminate|].
  intros H. unfold scan, leave_comment.
  rewrite (enter_comment_none _ O).
  destruct (strip r); [reflexivity|]. now rewrite H.
Qed.

(** When the scanner leaves its block comment at the first end marker of
    a line that the reference reads from outside, and the marker ends a
    block comment of the line or follows plain text, the reference goes
    on after the marker as the scanner does. *)
Lemma visible_resumes l e :
  find close_marker l = Some e -> resumes_clean l e = true ->
  exists p,
    visible false l =
    (p ++ fst (visible false (skipn (e + 2) l)),
     snd (visible false (skipn (e + 2) l))).
Proof.
  intros C H. unfold resumes_clean in H.
  assert (no_marker (firstn (e + 3) l) = true ->
          exists p, visible false l =
                    (p ++ fst (visible false (skipn (e + 2) l)),
                     snd (visible false (skipn (e + 2) l)))) as Plain.
  { unfold no_marker. intros N.
    destruct (find line_marker (firstn (e + 3) l)) eqn:L; [discriminate|].
    destruct (find open_marker (firstn (e + 3) l)) eqn:O; [discriminate|].
    exists (firstn (e + 2) l).
    replace (e + 3) with (e + 2 + 1) in * by lia.
    now apply visible_plain_prefix. }
  destruct (find open_marker l) as [i|] eqn:O; [|now apply Plain].
  destruct (i + 2 <=? e) eqn:G; [|now apply Plain].
  apply Nat.leb_le in G.
  destruct (find line_marker (firstn (i + 1) l)) eqn:L; [discriminate|].
  exists (firstn i l).
  rewrite (visible_open _ _ O L), visible_inside.
  rewrite (find_skipn_Some _ _ _ (i + 2) C G), skipn_skipn.
  now replace (e - (i + 2) + 2 + (i + 2)) with (e + 2) by lia.
Qed.

Lemma track_line_sound tr l tr' :
  track_line tr l = Some tr' ->
  subseq (code_text (fst (scan (scanner_inside tr) l)))
         (fst (visible (reference_inside tr) l)) /\
  snd (scan (scanner_inside tr) l) = scanner_inside tr' /\
  snd (visible (reference_inside tr) l) = reference_inside tr'.
Proof.
  assert (forall t, track_text t = Some tr' ->
            subseq (code_text (fst (scan false t))) (fst (visible false t)) /\
            snd (scan false t) = scanner_inside tr' /\
            snd (visible false t) = reference_inside tr') as Text.
  { intros t Ht. destruct (track_text_sound _ _ Ht) as (E1 & E2 & E3).
    split; [|now split]. rewrite E1. apply subseq_stripped. }
  destruct tr as [[|]|]; cbn [track_line scanner_inside reference_inside].
  - rewrite scan_inside, visible_inside.
    destruct (find close_marker l) as [e|]; [apply Text|].
    intros [= <-]. cbn [fst snd code_text scanner_inside reference_inside].
    split; [apply subseq_nil|now split].
  - apply Text.
  - rewrite scan_inside.
    destruct (find close_marker l) as [e|] eqn:C.
    + destruct (resumes_clean l e) eqn:R.
      * intros Ht. destruct (Text _ Ht) as (S1 & S2 & S3).
        destruct (visible_resumes _ _ C R) as (p & V). rewrite V.
        cbn [fst snd]. split; [now apply subseq_app_r|now split].
      * destruct (silent (skipn (e + 2) l)) eqn:Q; [|discriminate].
        destruct (snd (visible false l)) eqn:V; [discriminate|].
        intros [= <-]. rewrite (scan_silent _ Q).
        cbn [fst snd code_text scanner_inside reference_inside].
        split; [apply subseq_nil_l|now split].
    + intros [= <-]. cbn [fst snd code_text].
      split; [apply subseq_nil_l|].
      now destruct (snd (visible false l)).
Qed.

Lemma track_lines_sound ls tr :
  track_lines tr ls = true ->
  subseq (concat (code_lines (scanner_inside tr) ls))
         (comment_free_text (reference_inside tr) ls).
Proof.
  revert tr; induction ls as [|l ls IH]; intros tr H; [apply subseq_nil|].
  cbn [track_lines] in H.
  destruct (track_line tr l) as [tr'|] eqn:T; [|discriminate H].
  destruct (track_line_sound _ _ _ T) as (S1 & S2 & S3).
  specialize (IH _ H). rewrite <- S2, <- S3 in IH.
  cbn [code_lines comment_free_text].
  destruct (scan (scanner_inside tr) l) as [[c|] fl];
    cbn [fst snd code_text concat] in *.
  - now apply subseq_app.
  - now apply subseq_app_r.
Qed.

(** Readable lines are followed with the two readings in step. *)
Lemma readable_track_text t :
  readable_text t = true ->
  track_text t = Some (Sync (snd (visible false t))).
Proof.
  intros R. pose proof (scan_readable_text _ R) as S.
  rewrite scan_outside in S. injection S as _ S2. rewrite <- S2.
  unfold readable_text in R. unfold track_text.
  destruct (find open_marker t) as [i|] eqn:O;
    [|now rewrite (enter_comment_none _ O)].
  destruct (find line_marker (firstn (i + 1) t)) as [k|];
    destruct (find_from close_marker t (i + 2)) as [j|] eqn:C.
  - rewrite R. now rewrite (enter_comment_pair _ _ _ O C).
  - discriminate R.
  - rewrite R. now rewrite (enter_comment_pair _ _ _ O C).
  - now rewrite (enter_comment_open _ _ O C).
Qed.

Lemma readable_track_lines ls inside :
  readable_lines inside ls = true -> track_lines (Sync inside) ls = true.
Proof.
  revert inside; induction ls as [|l ls IH]; intros inside H;
    [reflexivity|].
  cbn [readable_lines] in H. apply andb_true_iff in H.
  destruct H as [Hl Hls]. cbn [track_lines].
  assert (track_line (Sync inside) l = Some (Sync (snd (visible inside l))))
    as ->; [|now apply IH].
  unfold readable, leave_comment in Hl.
  destruct inside; cbn [track_line].
  - rewrite visible_inside.
    destruct (find close_marker l); [now apply readable_track_text|reflexivity].
  - now apply readable_track_text.
Qed.

End Tracking.

(** C1, as the code has it.  On an input whose lines are all readable
    (the one search for a block-comment start, made before line comments
    are looked at, meets no start marker that it would misread: none
    left open inside a line comment or glued to its [//], and no second
    one outside a line comment after a comment closed on the line), the
    code lines are the comment-free text of the input lines, stripped.
    On an input that the scanner follows without keeping comment text
    (the readable ones, and those where a start marker left open inside
    a line comment only makes it drop lines, up to an end marker that
    the reference meets outside every comment), the output is made of
    comment-free text only: its characters are, in order, characters of
    the input that lie outside every [//] and [/*...*/] region (an
    unterminated block comment running to the end of the input). *)
Theorem C1_comment_removal :
  (forall s,
      readable_lines false (splitlines s) = true ->
      code_lines false (splitlines s) = clean_lines false (splitlines s))
  /\ (forall s,
         track_lines (Sync false) (splitlines s) = true ->
         subseq (concat (format_lines (splitlines s)))
                (comment_free_text false (splitlines s)))
  /\ (forall s,
         readable_lines false (splitlines s) = true ->
         track_lines (Sync false) (splitlines s) = true).
Proof.
  split; [|split].
  - intros s H. now apply code_lines_clean.
  - intros s H. rewrite format_lines_places, concat_places. cbn [concat app].
    exact (track_lines_sound _ (Sync false) H).
  - intros s H. now apply readable_track_lines.
Qed.

Lemma C1_witness :
  subseq
    (concat (format_lines
       [lit "x; // see /* note */"; lit "/* a /* b */ c"; lit "/* open";
        lit "inside // x /* y"; lit "still */ d // e /* f";
        lit "dropped"; lit "/* real */ g // h"; lit "// /* start";
        lit "// end */"; lit "i"]))
    (comment_free_text false
       [lit "x; // see /* note */"; lit "/* a /* b */ c"; lit "/* open";
        lit "inside // x /* y"; lit "still */ d // e /* f";
        lit "dropped"; lit "/* real */ g // h"; lit "// /* start";
        lit "// end */"; lit "i"]).
Proof.
  destruct C1_comment_removal as (_ & H & _).
  exact (H (nl (lit "x; // see /* note */")
            (nl (lit "/* a /* b */ c")
             (nl (lit "/* open")
              (nl (lit "inside // x /* y")
               (nl (lit "still */ d // e /* f")
                (nl (lit "dropped")
                 (nl (lit "/* real */ g // h")
                  (nl (lit "// /* start")
                   (nl (lit "// end */") (lit "i"))))))))))
           eq_refl).
Defined.

(** C1 as stated fails: the second block comment of a line stays in the
    output, and so does text that follows a block comment opened inside
    a line comment. *)
Lemma C1_counterexample :
  ~ (forall s,
        subseq (concat (format_lines (splitlines s)))
               (comment_free_text false (splitlines s)))
  /\ format_shader (lit "/* a */ /* SECRET */") = lit "/* SECRET */"
  /\ format_shader (lit "a //* c */ b") = lit "a / b".
Proof.
  split; [|split; reflexivity].
  intros H. specialize (H (lit "/* a */ /* SECRET */")).
  apply subseq_length in H. vm_compute in H. lia.
Qed.


(** * Beyond the claims: what the pass keeps of its input *)

(** Arithmetic on lengths, with the string types unfolded. *)
Ltac len := unfold str, char in *; lia.

Section Deletion.

Lemma subseq_skipn n s : subseq (skipn n s) s.
Proof.
  rewrite <- (firstn_skipn n s) at 2.
  change (skipn n s) with ([] ++ skipn n s) at 1.
  apply subseq_app; [apply subseq_nil_l|apply subseq_refl].
Qed.

Lemma subseq_firstn n s : subseq (firstn n s) s.
Proof.
  rewrite <- (firstn_skipn n s) at 2.
  rewrite <- (app_nil_r (firstn n s)) at 1.
  apply subseq_app; [apply subseq_refl|apply subseq_nil_l].
Qed.

Lemma subseq_lstrip s : subseq (lstrip s) s.
Proof.
  destruct (lstrip_split s) as (ws & _ & E). rewrite E at 2.
  change (lstrip s) with ([] ++ lstrip s) at 1.
  apply subseq_app; [apply subseq_nil_l|apply subseq_refl].
Qed.

Lemma subseq_rstrip s : subseq (rstrip s) s.
Proof.
  destruct (rstrip_split s) as (ws & _ & E). rewrite E at 2.
  rewrite <- (app_nil_r (rstrip s)) at 1.
  apply subseq_app; [apply subseq_refl|apply subseq_nil_l].
Qed.

Lemma subseq_cut sep s : subseq (cut sep s) s.
Proof.
  unfold cut. destruct (find sep s); [apply subseq_firstn|apply subseq_refl].
Qed.

Lemma subseq_leave_comment inside l l1 :
  leave_comment inside l = Some l1 -> subseq l1 l.
Proof.
  unfold leave_comment. destruct inside.
  - destruct (find close_marker l); [|easy]. intros [= <-].
    apply subseq_skipn.
  - intros [= <-]. apply subseq_refl.
Qed.

Lemma subseq_enter_comment l : subseq (fst (enter_comment l)) l.
Proof.
  unfold enter_comment, find_from.
  destruct (find open_marker l) as [i|]; [|apply subseq_refl].
  destruct (find close_marker (skipn (i + 2) l)) as [e|];
    cbn [option_map fst]; [|apply subseq_firstn].
  rewrite <- (firstn_skipn i l) at 3.
  apply subseq_app; [apply subseq_refl|].
  replace (i + 2 + e + 2) with (2 + e + 2 + i) by len.
  rewrite <- skipn_skipn. apply subseq_skipn.
Qed.

(** A code line is its input line with characters deleted. *)
Lemma scan_subseq inside l c inside' :
  scan inside l = (Some c, inside') -> subseq c l.
Proof.
  intros H. destruct (scan_inv _ _ _ _ H)
    as (l1 & l2 & x & t & H1 & H2 & H3 & _ & _ & ->).
  rewrite code_of_cut, <- H3.
  apply subseq_trans with (b := cut line_marker (lstrip l2));
    [apply subseq_rstrip|].
  apply subseq_trans with (b := lstrip l2); [apply subseq_cut|].
  apply subseq_trans with (b := l2); [apply subseq_lstrip|].
  apply subseq_trans with (b := l1);
    [|now apply subseq_leave_comment with (inside := inside)].
  replace l2 with (fst (enter_comment l1)) by now rewrite H2.
  apply subseq_enter_comment.
Qed.

Lemma code_lines_subseq ls inside :
  subseq (concat (code_lines inside ls)) (concat ls).
Proof.
  revert inside; induction ls as [|l ls IH]; intros inside;
    [apply subseq_nil|].
  cbn [code_lines concat].
  destruct (scan inside l) as [[c|] fl] eqn:E.
  - cbn [concat]. apply subseq_app; [|apply IH].
    now apply scan_subseq with (inside := inside) (inside' := fl).
  - change (concat (code_lines fl ls))
      with ([] ++ concat (code_lines fl ls)).
    apply subseq_app; [apply subseq_nil_l|apply IH].
Qed.

Lemma concat_splitlines_subseq s : subseq (concat (splitlines s)) s.
Proof.
  induction s as [|c t IH]; [apply subseq_nil|].
  rewrite splitlines_cons. destruct (is_linebreak c).
  - assert (subseq (concat ([] :: splitlines t)) (c :: t)) as H0
      by (apply subseq_skip; exact IH).
    destruct (c =? CR)%N; [|exact H0].
    destruct t as [|d t']; [exact H0|].
    destruct (N.eqb_spec d LF) as [->|_]; [|exact H0].
    rewrite splitlines_lf in IH. exact H0.
  - destruct (splitlines t) as [|l ls]; cbn [concat app] in *.
    + apply subseq_keep. apply subseq_nil_l.
    + apply subseq_keep. exact IH.
Qed.

Lemma concat_format_lines ls :
  concat (format_lines ls) = concat (code_lines false ls).
Proof. rewrite format_lines_places. apply concat_places. Qed.

Lemma subseq_In a b x : subseq a b -> In x a -> In x b.
Proof.
  induction 1 as [|a c b _ IH|a c b _ IH]; [easy|now right; apply IH|].
  intros [->|H]; [now left|right; now apply IH].
Qed.

(** The sizes of a joined text and of a split one. *)
Lemma length_join ls :
  ls <> [] ->
  length (join [LF] ls) + 1 = length (concat ls) + length ls.
Proof.
  induction ls as [|l ls IH]; [easy|]. intros _.
  destruct ls as [|l' ls'].
  - cbn [join concat length]. rewrite app_nil_r. len.
  - rewrite join_cons. cbn [concat length] in *.
    rewrite !length_app in *. cbn [length].
    specialize (IH ltac:(discriminate)). len.
Qed.

Lemma splitlines_size s :
  length (concat (splitlines s)) + length (splitlines s) <= length s + 1.
Proof.
  induction s as [|c t IH]; [cbn; lia|].
  rewrite splitlines_cons. destruct (is_linebreak c).
  - assert (length (concat ([] :: splitlines t))
            + length ([] :: splitlines t) <= length (c :: t) + 1) as H0
      by (cbn [concat app length]; len).
    destruct (c =? CR)%N; [|exact H0].
    destruct t as [|d t']; [exact H0|].
    destruct (N.eqb_spec d LF) as [->|_]; [|exact H0].
    rewrite splitlines_lf in IH. cbn [concat app length] in *.
    len.
  - destruct (splitlines t) as [|l ls]; cbn [concat app length] in *;
      rewrite ?length_app in *; cbn [length]; len.
Qed.

Lemma code_lines_count ls inside :
  length (code_lines inside ls) <= length ls.
Proof.
  revert inside; induction ls as [|l ls IH]; intros inside; [reflexivity|].
  cbn [code_lines length].
  destruct (scan inside l) as [[c|] fl]; cbn [length];
    specialize (IH fl); len.
Qed.

Lemma flush_count buf : length (flush buf) <= 1.
Proof. destruct buf; cbn; len. Qed.

Lemma places_count cs out buf :
  length (fst (places (out, buf) cs)) + length (flush (snd (places (out, buf) cs)))
  <= length out + length (flush buf) + length cs.
Proof.
  revert out buf; induction cs as [|c cs IH]; intros out buf.
  - cbn [places fold_left fst snd length]. len.
  - rewrite places_cons. cbn [fst snd length].
    destruct (is_directive c) eqn:D.
    + rewrite place_directive by exact D.
      specialize (IH (out ++ flush buf ++ [c]) []).
      rewrite !length_app in IH. cbn [length flush] in IH. len.
    + rewrite place_code by exact D. specialize (IH out (buf ++ c)).
      destruct buf as [|x buf].
      * pose proof (flush_count ([] ++ c)). cbn [flush length] in *. len.
      * cbn [flush app length] in *. len.
Qed.

Lemma format_lines_count ls : length (format_lines ls) <= length ls.
Proof.
  rewrite format_lines_places, length_app.
  pose proof (places_count (code_lines false ls) [] []) as H.
  pose proof (code_lines_count ls false). cbn [length flush] in H. len.
Qed.

End Deletion.

(** * Directives against the input text *)

Section DirectiveLines.

Lemma has_hash_subseq a b :
  subseq a b -> has_hash a = true -> has_hash b = true.
Proof.
  unfold has_hash. intros S H. apply existsb_exists in H.
  destruct H as (x & Hin & Hx). apply existsb_exists.
  exists x. split; [exact (subseq_In _ _ _ S Hin)|exact Hx].
Qed.

Lemma is_directive_has_hash c : is_directive c = true -> has_hash c = true.
Proof.
  unfold is_directive. destruct c as [|x t]; [discriminate|].
  rewrite startswith_single. intros H. unfold has_hash. cbn [existsb].
  now rewrite H.
Qed.

(** A line without [#] is no directive line and gives no directive. *)
Lemma directive_line_has_hash l : directive_line l = true -> has_hash l = true.
Proof.
  intros H. apply (has_hash_subseq (lstrip l)); [apply subseq_lstrip|].
  now apply is_directive_has_hash.
Qed.

Lemma scan_has_hash inside l c inside' :
  scan inside l = (Some c, inside') -> is_directive c = true ->
  has_hash l = true.
Proof.
  intros H D. apply (has_hash_subseq c).
  - exact (scan_subseq _ _ _ _ H).
  - now apply is_directive_has_hash.
Qed.

(** The code line of lines 59-63 is a directive exactly when the line is
    a directive line, and is then its text. *)
Lemma code_line_of_directive l :
  match code_line_of l with
  | Some c => is_directive c = directive_line l /\
              (directive_line l = true -> c = directive_text l)
  | None => directive_line l = false
  end.
Proof.
  unfold code_line_of, directive_line, directive_text, strip.
  destruct (lstrip l) as [|x t] eqn:E; [reflexivity|].
  pose proof (lstrip_head _ _ _ E) as Hx.
  rewrite rstrip_cons by exact Hx.
  destruct (startswith line_marker (x :: t)) eqn:L.
  - unfold is_directive. rewrite startswith_single.
    unfold line_marker in L. rewrite startswith_cons in L.
    destruct (N.eqb_spec SLASH x) as [<-|_]; [reflexivity|discriminate L].
  - split; [now apply is_directive_code_of|].
    intros _. apply code_of_cut.
Qed.

(** When every block-comment start of the line lies in its line comment,
    the scanner computes the code line of the line itself. *)
Lemma scan_open_commented l :
  open_commented l = true -> fst (scan false l) = code_line_of l.
Proof.
  unfold open_commented. intros H. rewrite scan_outside. cbn [fst].
  destruct (find open_marker l) as [i|] eqn:O;
    [|now rewrite (enter_comment_none _ O)].
  destruct (find line_marker l) as [k|] eqn:L; [|discriminate H].
  apply Nat.leb_le in H.
  pose proof (find_Some_bound _ _ _ O) as Hi.
  cbn [length open_marker] in Hi.
  assert (cut line_marker l = firstn k l) as Cl
    by (unfold cut; now rewrite L).
  rewrite !code_line_of_cut, Cl. f_equal.
  destruct (find_from close_marker l (i + 2)) as [j|] eqn:C.
  - rewrite (enter_comment_pair _ _ _ O C). cbn [fst].
    apply cut_in_comment; [exact L|exact H|lia].
  - rewrite (enter_comment_open _ _ O C). cbn [fst].
    rewrite <- (app_nil_r (firstn i l)).
    apply cut_in_comment; [exact L|exact H|lia].
Qed.

(** On such lines the directives among the code lines are the texts of
    the directive lines. *)
Lemma filter_code_lines_plain ls inside :
  directives_plain inside ls = true ->
  filter is_directive (code_lines inside ls)
  = map directive_text (filter directive_line ls).
Proof.
  revert inside; induction ls as [|l ls IH]; intros inside H;
    [reflexivity|].
  cbn [directives_plain] in H. apply andb_true_iff in H.
  destruct H as [Hl Hls]. specialize (IH _ Hls).
  cbn [code_lines filter]. apply orb_true_iff in Hl.
  destruct Hl as [Hl|Hl].
  - apply negb_true_iff in Hl.
    assert (directive_line l = false) as ->.
    { destruct (directive_line l) eqn:D; [|reflexivity].
      apply directive_line_has_hash in D. congruence. }
    destruct (scan inside l) as [[c|] fl] eqn:E; cbn [snd] in IH;
      [|exact IH].
    cbn [filter]. destruct (is_directive c) eqn:D; [|exact IH].
    pose proof (scan_has_hash _ _ _ _ E D). congruence.
  - apply andb_true_iff in Hl. destruct Hl as [Hi Ho].
    apply negb_true_iff in Hi. subst inside.
    pose proof (scan_open_commented _ Ho) as E.
    pose proof (code_line_of_directive l) as P.
    destruct (scan false l) as [[c|] fl]; cbn [fst snd] in *;
      rewrite <- E in P.
    + destruct P as [P1 P2]. cbn [filter]. rewrite P1.
      destruct (directive_line l); [|exact IH].
      cbn [map]. now rewrite IH, (P2 eq_refl).
    + now rewrite P.
Qed.

End DirectiveLines.

(** C3, as the code has it.  The output lines that start with [#] are,
    in order, the code lines that start with [#] (each the code line of
    one input line), and nothing else of the code lines is lost or
    added.  On an input whose lines are all readable they are the
    stripped comment-free texts that start with [#]; on an input where
    every line that holds a [#] is met outside a block comment and holds
    no block-comment start but after a [//], clear of it, they are the
    texts of the directive lines of the input: each without its leading
    whitespace, cut at its first [//] and stripped on the right.  A
    directive line flushes a non-empty buffer as a line of its own and is
    then appended as a line of its own, so two adjacent directives stay
    two lines. *)
Theorem C3_directive_isolation :
  (forall s,
      filter is_directive (format_lines (splitlines s))
      = filter is_directive (code_lines false (splitlines s)) /\
      concat (format_lines (splitlines s))
      = concat (code_lines false (splitlines s)))
  /\ (forall s,
         readable_lines false (splitlines s) = true ->
         filter is_directive (format_lines (splitlines s))
         = filter is_directive (clean_lines false (splitlines s)))
  /\ (forall s,
         directives_plain false (splitlines s) = true ->
         filter is_directive (format_lines (splitlines s))
         = map directive_text (filter directive_line (splitlines s)))
  /\ (forall inside l c inside',
         scan inside l = (Some c, inside') -> is_directive c = true ->
         exists l1 l2,
           leave_comment inside l = Some l1 /\
           enter_comment l1 = (l2, inside') /\
           is_directive (lstrip l2) = true /\
           c = rstrip (cut line_marker (lstrip l2)))
  /\ (forall l,
         find open_marker l = None -> is_directive (lstrip l) = true ->
         scan false l = (Some (rstrip (cut line_marker (lstrip l))), false))
  /\ (forall st l c inside',
         scan (in_multiline_comment st) l = (Some c, inside') ->
         is_directive c = true ->
         step st l =
         mkState (output_lines st ++ flush (buffer_line st) ++ [c]) [] inside')
  /\ format_shader (nl (lit "#define A") (lit "#define B"))
     = nl (lit "#define A") (lit "#define B")
  /\ format_shader
       (nl (lit "#define PI 3.14") (nl (lit "float a = PI;")
          (lit "#define E 2.71")))
     = nl (lit "#define PI 3.14") (nl (lit "float a = PI;")
          (lit "#define E 2.71")).
Proof.
  split; [|split; [|split; [|split; [|split; [|split; [|split; reflexivity]]]]]].
  - intros s. rewrite format_lines_places. split.
    + now rewrite filter_places.
    + now rewrite concat_places.
  - intros s H. rewrite format_lines_places, filter_places by reflexivity.
    cbn [filter app]. now rewrite (code_lines_clean _ false H).
  - intros s H. rewrite format_lines_places, filter_places by reflexivity.
    cbn [filter app]. now apply filter_code_lines_plain.
  - intros inside l c fl H D.
    destruct (scan_inv _ _ _ _ H)
      as (l1 & l2 & x & t & H1 & H2 & H3 & Hx & Hm & ->).
    exists l1, l2. rewrite H3. repeat split; auto.
    + now rewrite <- (is_directive_code_of x t).
    + apply code_of_cut.
  - intros l Ho D. unfold scan, leave_comment.
    rewrite (enter_comment_none _ Ho).
    destruct (lstrip l) as [|x t] eqn:E; [discriminate D|].
    pose proof (lstrip_head _ _ _ E) as Hx.
    unfold strip. rewrite E, rstrip_cons by exact Hx.
    assert (startswith line_marker (x :: t) = false) as Hm.
    { unfold is_directive in D. rewrite startswith_single in D.
      apply N.eqb_eq in D. subst x. reflexivity. }
    now rewrite Hm, code_of_cut.
  - intros st l c fl H D. rewrite step_scan, H.
    now rewrite place_directive.
Qed.

Lemma C3_witness :
  filter is_directive
    (format_lines
       [lit "  #define A 1 // one /* two */"; lit "x = 1; // see #3";
        lit "#define B"; lit "#define C // three"])
  = [lit "#define A 1"; lit "#define B"; lit "#define C"].
Proof.
  destruct C3_directive_isolation as (_ & _ & H & _).
  exact (H (nl (lit "  #define A 1 // one /* two */")
             (nl (lit "x = 1; // see #3")
              (nl (lit "#define B") (lit "#define C // three"))))
           eq_refl).
Defined.

(** C3 as stated fails: an output line that starts with [#] need not come
    from a directive line.  Here no input line is one, and the [#] line
    of the output is text of a line comment, laid bare by a block
    comment that the scanner opened inside the line comment of the line
    before. *)
Lemma C3_counterexample :
  ~ (forall s o,
        In o (format_lines (splitlines s)) -> is_directive o = true ->
        exists l, In l (splitlines s) /\ directive_line l = true /\
                  o = directive_text l)
  /\ format_shader
       (nl (lit "x = 1; // start /* of note") (lit "y = 2; // end */ #hashtag"))
     = nl (lit "x = 1;") (lit "#hashtag").
Proof.
  split; [|reflexivity].
  intros H.
  destruct (H (nl (lit "x = 1; // start /* of note")
                  (lit "y = 2; // end */ #hashtag"))
              (lit "#hashtag")) as (l & Hin & D & _).
  - right. left. reflexivity.
  - reflexivity.
  - destruct Hin as [<-|[<-|[]]]; discriminate D.
Qed.

(** X1.  The pass only deletes: the characters of the output lines are,
    in order, characters of the input.  Nothing is added but the
    newlines that join the output lines. *)
Theorem X1_output_from_input :
  forall s, subseq (concat (format_lines (splitlines s))) s.
Proof.
  intros s. rewrite concat_format_lines.
  apply subseq_trans with (b := concat (splitlines s)).
  - apply code_lines_subseq.
  - apply concat_splitlines_subseq.
Qed.

(** X2.  The minified text is never longer than the source. *)
Theorem X2_never_longer :
  forall s, length (format_shader s) <= length s.
Proof.
  intros s. unfold format_shader.
  destruct (format_lines (splitlines s)) as [|o out] eqn:E; [cbn; lia|].
  pose proof (length_join (o :: out) ltac:(discriminate)) as Hj.
  rewrite <- E in *.
  pose proof (format_lines_count (splitlines s)) as Hc.
  pose proof (subseq_length _ _ (code_lines_subseq (splitlines s) false)) as Hl.
  rewrite <- concat_format_lines in Hl.
  pose proof (splitlines_size s). len.
Qed.

(** * Beyond the claims: how the output is put together *)

Section Composition.

Lemma code_lines_app a b inside :
  code_lines inside (a ++ b)
  = code_lines inside a ++ code_lines (flag_after inside a) b.
Proof.
  revert inside; induction a as [|l a IH]; intros inside; [reflexivity|].
  cbn [app code_lines flag_after].
  destruct (scan inside l) as [[c|] fl]; cbn [snd app]; now rewrite IH.
Qed.

Lemma places_app ob a b : places ob (a ++ b) = places (places ob a) b.
Proof. apply fold_left_app. Qed.

(** The lines already put out are never touched again. *)
Lemma places_prefix cs out buf :
  places (out, buf) cs
  = (out ++ fst (places ([], buf) cs), snd (places ([], buf) cs)).
Proof.
  revert out buf; induction cs as [|c cs IH]; intros out buf.
  - cbn [places fold_left fst snd]. now rewrite app_nil_r.
  - rewrite !places_cons. cbn [fst snd].
    destruct (is_directive c) eqn:D.
    + rewrite !place_directive by exact D.
      rewrite (IH (out ++ flush buf ++ [c])), (IH ([] ++ flush buf ++ [c])).
      cbn [fst snd app]. now rewrite <- !app_assoc.
    + rewrite !place_code by exact D. apply IH.
Qed.

Lemma places_no_directive cs buf :
  Forall (fun c => is_directive c = false) cs ->
  places ([], buf) cs = ([], buf ++ concat cs).
Proof.
  intros H; revert buf.
  induction H as [|c cs Hc _ IH]; intros buf.
  - cbn [places fold_left concat]. now rewrite app_nil_r.
  - rewrite places_cons. cbn [fst snd]. rewrite place_code by exact Hc.
    rewrite IH. cbn [concat]. now rewrite app_assoc.
Qed.

Lemma join_flush x : join [LF] (flush x) = x.
Proof. now destruct x. Qed.

Lemma one_line_concat cs : Forall one_line cs -> one_line (concat cs).
Proof.
  induction 1 as [|c cs Hc _ IH]; [constructor|].
  cbn [concat]. apply Forall_app. now split.
Qed.

Lemma scan_no_line_marker inside l c inside' :
  scan inside l = (Some c, inside') -> find line_marker c = None.
Proof.
  intros H. destruct (scan_inv _ _ _ _ H)
    as (l1 & l2 & x & t & _ & _ & _ & _ & _ & ->).
  rewrite code_of_cut.
  pose proof (cut_find_None line_marker (x :: t) line_marker_ne) as Hc.
  destruct (rstrip_split (cut line_marker (x :: t))) as (ws & _ & E).
  rewrite E in Hc. now apply find_app_None in Hc.
Qed.

Lemma code_lines_no_line_marker ls inside :
  Forall (fun c => find line_marker c = None) (code_lines inside ls).
Proof.
  revert inside; induction ls as [|l ls IH]; intros inside; cbn [code_lines].
  - constructor.
  - destruct (scan inside l) as [[c|] fl] eqn:E; [|apply IH].
    constructor; [eapply scan_no_line_marker; eauto|apply IH].
Qed.

End Composition.

(** X3.  A directive is a barrier: when a line met outside a block
    comment gives a directive and leaves the scanner outside a block
    comment, the output is the output of the lines before it, the
    directive, and the output of the lines after it, minified on their
    own. *)
Theorem X3_directive_barrier :
  forall s pre d post c,
    splitlines s = pre ++ d :: post ->
    in_multiline_comment (run init pre) = false ->
    scan false d = (Some c, false) ->
    is_directive c = true ->
    format_shader s = join [LF] (format_lines pre ++ c :: format_lines post).
Proof.
  intros s pre d post c Hs Hf Hd D. unfold format_shader. rewrite Hs.
  f_equal. rewrite !format_lines_places.
  rewrite flag_run in Hf. cbn [init in_multiline_comment] in Hf.
  rewrite code_lines_app, Hf. cbn [code_lines]. rewrite Hd.
  rewrite places_app, places_cons.
  destruct (places ([], []) (code_lines false pre)) as [o1 b1].
  cbn [fst snd]. rewrite place_directive by exact D.
  rewrite places_prefix. cbn [fst snd].
  rewrite <- !app_assoc. reflexivity.
Qed.

Lemma X3_witness :
  format_shader (nl (lit "a;") (nl (lit "b;") (nl (lit "#define X 1")
                                                (nl (lit "c;") (lit "d;")))))
  = join [LF] (format_lines [lit "a;"; lit "b;"]
               ++ lit "#define X 1" :: format_lines [lit "c;"; lit "d;"]).
Proof.
  exact (X3_directive_barrier
           (nl (lit "a;") (nl (lit "b;") (nl (lit "#define X 1")
                                           (nl (lit "c;") (lit "d;")))))
           [lit "a;"; lit "b;"] (lit "#define X 1") [lit "c;"; lit "d;"]
           (lit "#define X 1") eq_refl eq_refl eq_refl eq_refl).
Defined.

(** X4.  Without a [#] in the source there is no directive: the output
    is the plain concatenation of the code lines, a single line. *)
Theorem X4_single_line_without_directive :
  forall s,
    ~ In HASH s ->
    format_shader s = concat (code_lines false (splitlines s)) /\
    one_line (format_shader s).
Proof.
  intros s Hs.
  assert (Forall (fun c => is_directive c = false)
                 (code_lines false (splitlines s))) as Hd.
  { rewrite Forall_forall. intros c Hc.
    destruct (is_directive c) eqn:D; [exfalso|reflexivity].
    apply Hs. unfold is_directive in D. apply startswith_inv in D.
    apply (subseq_In _ _ _ (concat_splitlines_subseq s)).
    apply (subseq_In _ _ _ (code_lines_subseq (splitlines s) false)).
    apply in_concat. exists c. split; [exact Hc|]. rewrite D. now left. }
  assert (format_shader s = concat (code_lines false (splitlines s))) as E.
  { unfold format_shader. rewrite format_lines_places.
    rewrite (places_no_directive _ _ Hd). cbn [fst snd app].
    apply join_flush. }
  split; [exact E|]. rewrite E.
  apply one_line_concat, code_lines_one_line, splitlines_one_line.
Qed.

Lemma X4_witness :
  format_shader (nl (lit "float a = 1; // one") (lit "  float b = 2;"))
  = concat (code_lines false [lit "float a = 1; // one"; lit "  float b = 2;"]).
Proof.
  refine (proj1 (X4_single_line_without_directive
                   (nl (lit "float a = 1; // one") (lit "  float b = 2;")) _)).
  intros H. vm_compute in H.
  repeat (destruct H as [H|H]; [discriminate H|]). exact H.
Defined.

(** X7.  No directive line of the output holds [//]: the line comment
    that follows a directive is always removed. *)
Theorem X7_directive_without_line_comment :
  forall s o,
    In o (format_lines (splitlines s)) -> is_directive o = true ->
    find line_marker o = None.
Proof.
  intros s o Ho D.
  assert (In o (filter is_directive (format_lines (splitlines s)))) as H
    by (apply filter_In; now split).
  rewrite format_lines_places, filter_places in H by reflexivity.
  cbn [filter app] in H. apply filter_In in H. destruct H as [H _].
  pose proof (code_lines_no_line_marker (splitlines s) false) as F.
  rewrite Forall_forall in F. now apply F.
Qed.

Lemma X7_witness :
  find line_marker (lit "#define A 1") = None.
Proof.
  apply (X7_directive_without_line_comment
           (nl (lit "x;") (lit "#define A 1 // one"))).
  - right. left. reflexivity.
  - reflexivity.
Defined.

(** * Beyond the claims: block comments over several lines *)

(** X8.  A block comment that spans lines acts as a line break.  Let a
    line met outside a block comment be [a], a start marker and [x],
    where that marker is the first start marker of the line and [x]
    holds no end marker; let the lines that follow hold no end marker,
    up to a line made of [y], an end marker and [b], where that marker
    is the first end marker of the line.  Then the output is that of the
    input where those lines are replaced by the two lines [a] and
    [b]. *)
Theorem X8_block_comment_is_line_break :
  forall pre a x mid y b post,
    in_multiline_comment (run init pre) = false ->
    find open_marker (a ++ open_marker ++ x) = Some (length a) ->
    find close_marker x = None ->
    Forall (fun m => find close_marker m = None) mid ->
    find close_marker (y ++ close_marker ++ b) = Some (length y) ->
    format_lines (pre ++ (a ++ open_marker ++ x) :: mid
                      ++ (y ++ close_marker ++ b) :: post)
    = format_lines (pre ++ a :: b :: post).
Proof.
  intros pre a x mid y b post Hf Ho Hx Hmid Hy.
  unfold format_lines. f_equal.
  rewrite !run_app, !run_cons, run_app, run_cons.
  set (st := run init pre) in *.
  assert (firstn (length a) (a ++ open_marker ++ x) = a) as Fa
    by (rewrite firstn_app, firstn_all, Nat.sub_diag; cbn [firstn];
        apply app_nil_r).
  assert (skipn (length a + 2) (a ++ open_marker ++ x) = x) as Sa.
  { rewrite skipn_app, skipn_all2 by lia.
    replace (length a + 2 - length a) with 2 by lia. reflexivity. }
  assert (skipn (length y + 2) (y ++ close_marker ++ b) = b) as Sy.
  { rewrite skipn_app, skipn_all2 by lia.
    replace (length y + 2 - length y) with 2 by lia. reflexivity. }
  assert (find open_marker a = None) as Hoa.
  { rewrite <- Fa at 1. apply find_firstn_None; [exact open_marker_ne|exact Ho]. }
  assert (step st (a ++ open_marker ++ x)
          = mkState (output_lines (step st a)) (buffer_line (step st a)) true)
    as E1.
  { unfold step, leave_comment. rewrite Hf.
    rewrite (enter_comment_open _ _ Ho), (enter_comment_none _ Hoa), Fa.
    - now destruct (emit (output_lines st) (buffer_line st) a).
    - unfold find_from. now rewrite Sa, Hx. }
  assert (in_multiline_comment (step st a) = false) as Hfa.
  { unfold step, leave_comment. rewrite Hf, (enter_comment_none _ Hoa).
    now destruct (emit (output_lines st) (buffer_line st) a). }
  rewrite E1.
  set (st1 := mkState (output_lines (step st a)) (buffer_line (step st a))
                      true).
  rewrite (run_inside st1 mid eq_refl Hmid).
  rewrite (step_resume st1 _ (length y) eq_refl Hy), Sy. subst st1.
  cbn [output_lines buffer_line].
  destruct (step st a) as [o bf fl].
  cbn [output_lines buffer_line in_multiline_comment] in Hfa |- *.
  now rewrite Hfa.
Qed.

Lemma X8_witness :
  format_lines [lit "x = 1; /* start"; lit "middle"; lit "end */ y = 2;"]
  = format_lines [lit "x = 1; "; lit " y = 2;"].
Proof.
  assert (Forall (fun m => find close_marker m = None) [lit "middle"])
    as Hmid by (repeat constructor).
  exact (X8_block_comment_is_line_break
           [] (lit "x = 1; ") (lit " start") [lit "middle"] (lit "end ")
           (lit " y = 2;") [] eq_refl eq_refl eq_refl Hmid eq_refl).
Defined.

(** * Beyond the claims: layout *)

Section Layout.

Lemma find_blank_prefix ws a m l :
  blank ws -> is_space a = false ->
  find (a :: m) (ws ++ l)
  = option_map (fun i => length ws + i) (find (a :: m) l).
Proof.
  intros Hws Ha. induction Hws as [|c ws Hc _ IH].
  - cbn [app length]. now destruct (find (a :: m) l).
  - cbn [app length]. rewrite find_cons, startswith_cons, IH.
    destruct (N.eqb_spec a c) as [->|_]; [congruence|].
    cbn [andb]. now destruct (find (a :: m) l).
Qed.

Lemma find_blank ws a m :
  blank ws -> is_space a = false -> find (a :: m) ws = None.
Proof.
  intros Hws Ha. rewrite <- (app_nil_r ws).
  rewrite (find_blank_prefix ws a m [] Hws Ha).
  now rewrite find_nil.
Qed.

Lemma startswith_single_blank b t ws :
  blank ws -> is_space b = false ->
  startswith [b] (t ++ ws) = startswith [b] t.
Proof.
  intros Hws Hb. destruct t as [|d t]; [|reflexivity].
  cbn [app]. destruct Hws as [|w ws Hw _]; [reflexivity|].
  rewrite startswith_single.
  destruct (N.eqb_spec b w) as [->|_]; [congruence|reflexivity].
Qed.

Lemma find_blank_suffix ws a b l :
  blank ws -> is_space a = false -> is_space b = false ->
  find [a; b] (l ++ ws) = find [a; b] l.
Proof.
  intros Hws Ha Hb. induction l as [|c t IH].
  - cbn [app]. rewrite (find_blank ws a [b] Hws Ha). reflexivity.
  - cbn [app]. rewrite !find_cons, !startswith_cons, IH.
    now rewrite (startswith_single_blank b t ws Hws Hb).
Qed.

Lemma find_open_left ws l :
  blank ws ->
  find open_marker (ws ++ l)
  = option_map (fun i => length ws + i) (find open_marker l).
Proof. intros H. now apply find_blank_prefix. Qed.

Lemma find_close_left ws l :
  blank ws ->
  find close_marker (ws ++ l)
  = option_map (fun i => length ws + i) (find close_marker l).
Proof. intros H. now apply find_blank_prefix. Qed.

Lemma find_open_right ws l :
  blank ws -> find open_marker (l ++ ws) = find open_marker l.
Proof. intros H. now apply find_blank_suffix. Qed.

Lemma find_close_right ws l :
  blank ws -> find close_marker (l ++ ws) = find close_marker l.
Proof. intros H. now apply find_blank_suffix. Qed.

Lemma find_line_right ws l :
  blank ws -> find line_marker (l ++ ws) = find line_marker l.
Proof. intros H. now apply find_blank_suffix. Qed.

Lemma strip_app_blank_l ws l : blank ws -> strip (ws ++ l) = strip l.
Proof. intros H. unfold strip. now rewrite lstrip_app_blank. Qed.

Lemma strip_app_blank_r l ws : blank ws -> strip (l ++ ws) = strip l.
Proof.
  intros H. unfold strip. destruct (lstrip l) as [|x t] eqn:E.
  - apply lstrip_nil_blank in E.
    now rewrite (lstrip_blank _ (blank_app _ _ E H)).
  - rewrite (lstrip_app _ ws _ _ E). now apply rstrip_app_blank.
Qed.

(** Whitespace before the text of a line. *)
Lemma enter_comment_left ws l :
  blank ws ->
  enter_comment (ws ++ l)
  = (ws ++ fst (enter_comment l), snd (enter_comment l)).
Proof.
  intros H. unfold enter_comment, find_from.
  rewrite (find_open_left ws l H).
  destruct (find open_marker l) as [i|]; cbn [option_map fst snd];
    [|reflexivity].
  assert (skipn (length ws + i + 2) (ws ++ l) = skipn (i + 2) l) as ->.
  { rewrite skipn_app, skipn_all2 by len. cbn [app]. f_equal. len. }
  assert (firstn (length ws + i) (ws ++ l) = ws ++ firstn i l) as ->.
  { rewrite firstn_app, firstn_all2 by len. f_equal. f_equal. len. }
  destruct (find close_marker (skipn (i + 2) l)) as [e|];
    cbn [option_map fst snd]; [|reflexivity].
  rewrite <- app_assoc. f_equal. f_equal.
  rewrite skipn_app, skipn_all2 by len. cbn [app]. do 2 f_equal. len.
Qed.

Lemma code_line_of_left ws l :
  blank ws -> code_line_of (ws ++ l) = code_line_of l.
Proof.
  intros H. rewrite !code_line_of_cut.
  rewrite (cut_app _ _ (find_line_blank _ H)). unfold stripped.
  now rewrite strip_app_blank_l.
Qed.

Lemma scan_left inside ws l :
  blank ws -> scan inside (ws ++ l) = scan inside l.
Proof.
  intros H. destruct inside.
  - rewrite !scan_inside.
    rewrite (find_close_left ws l H).
    destruct (find close_marker l) as [e|]; cbn [option_map]; [|reflexivity].
    f_equal. rewrite skipn_app, skipn_all2 by len. cbn [app]. f_equal. len.
  - rewrite !scan_outside, (enter_comment_left _ _ H). cbn [fst snd].
    now rewrite (code_line_of_left _ _ H).
Qed.

(** Whitespace after the text of a line. *)
Lemma enter_comment_right l ws :
  blank ws ->
  exists ws', blank ws' /\
    enter_comment (l ++ ws)
    = (fst (enter_comment l) ++ ws', snd (enter_comment l)).
Proof.
  intros H. unfold enter_comment, find_from.
  rewrite (find_open_right ws l H).
  destruct (find open_marker l) as [i|] eqn:O; cbn [fst snd];
    [|now exists ws].
  pose proof (find_Some_bound _ _ _ O) as Hi. cbn [length open_marker] in Hi.
  assert (skipn (i + 2) (l ++ ws) = skipn (i + 2) l ++ ws) as ->.
  { rewrite skipn_app. replace (i + 2 - length l) with 0 by len.
    reflexivity. }
  rewrite (find_close_right ws _ H).
  assert (firstn i (l ++ ws) = firstn i l) as ->.
  { rewrite firstn_app. replace (i - length l) with 0 by len.
    cbn [firstn]. apply app_nil_r. }
  destruct (find close_marker (skipn (i + 2) l)) as [e|] eqn:C;
    cbn [option_map fst snd].
  - exists ws. split; [exact H|].
    pose proof (find_Some_bound _ _ _ C) as He.
    rewrite length_skipn in He. cbn [length close_marker] in He.
    rewrite <- app_assoc. f_equal. f_equal.
    rewrite skipn_app. replace (i + 2 + e + 2 - length l) with 0 by len.
    reflexivity.
  - exists []. split; [constructor|]. now rewrite app_nil_r.
Qed.

Lemma code_line_of_right l ws :
  blank ws -> code_line_of (l ++ ws) = code_line_of l.
Proof.
  intros H. rewrite !code_line_of_cut. unfold cut.
  rewrite (find_line_right ws l H).
  destruct (find line_marker l) as [k|] eqn:F.
  - pose proof (find_Some_bound _ _ _ F) as Hk.
    rewrite firstn_app. replace (k - length l) with 0 by len.
    cbn [firstn]. now rewrite app_nil_r.
  - unfold stripped. now rewrite strip_app_blank_r.
Qed.

Lemma scan_outside_right l ws :
  blank ws -> scan false (l ++ ws) = scan false l.
Proof.
  intros H. rewrite !scan_outside.
  destruct (enter_comment_right l ws H) as (ws' & Hws' & ->).
  cbn [fst snd]. now rewrite (code_line_of_right _ _ Hws').
Qed.

Lemma scan_right inside l ws :
  blank ws -> scan inside (l ++ ws) = scan inside l.
Proof.
  intros H. destruct inside; [|now apply scan_outside_right].
  rewrite !scan_inside.
  rewrite (find_close_right ws l H).
  destruct (find close_marker l) as [e|] eqn:C; [|reflexivity].
  pose proof (find_Some_bound _ _ _ C) as He.
  cbn [length close_marker] in He.
  rewrite skipn_app. replace (e + 2 - length l) with 0 by len.
  cbn [skipn]. now apply scan_outside_right.
Qed.

Lemma scan_margins inside l l' :
  margins l l' -> scan inside l' = scan inside l.
Proof.
  intros (ws1 & ws2 & H1 & H2 & ->).
  now rewrite (scan_left _ _ _ H1), (scan_right _ _ _ H2).
Qed.

Lemma code_lines_margins ls ls' inside :
  Forall2 margins ls ls' -> code_lines inside ls' = code_lines inside ls.
Proof.
  intros H; revert inside.
  induction H as [|l l' ls ls' Hl _ IH]; intros inside; [reflexivity|].
  cbn [code_lines]. rewrite (scan_margins inside _ _ Hl).
  destruct (scan inside l) as [[c|] fl]; now rewrite IH.
Qed.

(** A blank line changes nothing, inside a block comment or outside. *)
Lemma step_blank st l : blank l -> step st l = st.
Proof.
  intros H. destruct (in_multiline_comment st) eqn:F.
  - apply step_inside; [exact F|]. now apply (find_blank l STAR [SLASH]).
  - apply step_inert; [exact F|]. now left.
Qed.

End Layout.

(** X5.  The layout of the source does not matter: whitespace added at
    the two ends of any lines leaves the output unchanged, and so does a
    blank line added anywhere. *)
Theorem X5_layout_irrelevant :
  (forall ls ls',
      Forall2 margins ls ls' -> format_lines ls' = format_lines ls)
  /\ (forall pre l post,
         blank l -> format_lines (pre ++ l :: post) = format_lines (pre ++ post)).
Proof.
  split.
  - intros ls ls' H. rewrite !format_lines_places.
    now rewrite (code_lines_margins _ _ false H).
  - intros pre l post H. unfold format_lines.
    now rewrite !run_app, run_cons, (step_blank _ _ H).
Qed.

Lemma X5_witness :
  format_lines [lit "    float a = 1;  "; lit "  "; (9%N :: lit "#define B 2")]
  = format_lines [lit "float a = 1;"; lit "#define B 2"].
Proof.
  destruct X5_layout_irrelevant as [H1 H2].
  assert (blank (lit "  ")) as Hb by (repeat constructor).
  assert (Forall2 margins [lit "float a = 1;"; lit "#define B 2"]
            [lit "    float a = 1;  "; 9%N :: lit "#define B 2"]) as HF.
  { constructor; [|constructor; [|constructor]].
    - exists (lit "    "), (lit "  "). repeat split; repeat constructor.
    - exists [9%N], []. repeat split; repeat constructor. }
  exact (eq_trans
           (H2 [lit "    float a = 1;  "] (lit "  ")
               [9%N :: lit "#define B 2"] Hb)
           (H1 _ _ HF)).
Defined.

(** * Beyond the claims: newline conventions *)

Section Newlines.

Lemma join_not_lf sep ls b' :
  Forall one_line ls -> hd LF sep <> LF -> sep <> [] ->
  join sep ls <> LF :: b'.
Proof.
  intros H Hsep Hne. destruct H as [|l ls Hl H]; [easy|].
  destruct l as [|c l].
  - destruct ls as [|l' ls']; [easy|]. rewrite join_cons. cbn [app].
    destruct sep as [|x sep]; [easy|]. cbn [app hd] in *. congruence.
  - inversion Hl as [|? ? Hc _]; subst.
    destruct ls as [|l' ls']; [cbn [join]|rewrite join_cons; cbn [app]];
      intros [= -> _]; discriminate Hc.
Qed.

(** The lines of a text do not depend on which of LF, CR LF and CR joins
    them. *)
Lemma splitlines_join_crlf ls :
  Forall one_line ls ->
  splitlines (join [CR; LF] ls) = splitlines (join [LF] ls) /\
  splitlines (join [CR] ls) = splitlines (join [LF] ls).
Proof.
  induction 1 as [|l ls Hl H [IH1 IH2]]; [now split|].
  destruct ls as [|l' ls']; [now split|].
  rewrite !join_cons. split.
  - change ([CR; LF] ++ join [CR; LF] (l' :: ls'))
      with (CR :: LF :: join [CR; LF] (l' :: ls')).
    change ([LF] ++ join [LF] (l' :: ls'))
      with (LF :: join [LF] (l' :: ls')).
    rewrite (splitlines_crlf _ _ Hl).
    rewrite (splitlines_boundary l LF _ Hl eq_refl) by discriminate.
    now rewrite IH1.
  - change ([CR] ++ join [CR] (l' :: ls'))
      with (CR :: join [CR] (l' :: ls')).
    change ([LF] ++ join [LF] (l' :: ls'))
      with (LF :: join [LF] (l' :: ls')).
    rewrite (splitlines_boundary l CR _ Hl eq_refl).
    + rewrite (splitlines_boundary l LF _ Hl eq_refl) by discriminate.
      now rewrite IH2.
    + intros _ b'. apply join_not_lf; [exact H|discriminate|discriminate].
Qed.

End Newlines.

(** X6.  The newline convention of the source does not matter: the same
    lines joined by CR LF, by a lone CR or by LF minify to the same
    text. *)
Theorem X6_newline_convention_irrelevant :
  forall ls,
    Forall one_line ls ->
    format_shader (join [CR; LF] ls) = format_shader (join [LF] ls) /\
    format_shader (join [CR] ls) = format_shader (join [LF] ls).
Proof.
  intros ls H. destruct (splitlines_join_crlf ls H) as [H1 H2].
  unfold format_shader. now rewrite H1, H2.
Qed.

Lemma X6_witness :
  format_shader (lit "#define A" ++ CR :: LF :: lit "x = A;")
  = format_shader (nl (lit "#define A") (lit "x = A;")).
Proof.
  assert (Forall one_line [lit "#define A"; lit "x = A;"]) as H
    by (repeat constructor).
  exact (proj1 (X6_newline_convention_irrelevant _ H)).
Defined.

(** * Beyond the claims: the command line *)

Section CommandLine.





End CommandLine.



(** Standard output refusing the minified text: the run ends in the last
    handler, and only its message is written. *)
Example main_print_failure :
  main [lit "glsl_minifier.py"; lit "a.glsl"]
       (fun _ => ReadOk [120%N; 233%N])
       ascii_stdout
  = (nl (lit "An error occurred: ordinal not in range(128)") [], Returned).
Proof. reflexivity. Qed.

(** * Beyond the claims: merged code *)

(** X10.  Plain code lines are glued with nothing between them: a text
    of tidy lines, joined by newlines, that hold no line-boundary
    character and no comment marker and are no directives minifies to
    their concatenation, so the last token of a line and the first of
    the next become neighbours. *)
Theorem X10_code_lines_glued :
  forall ls,
    Forall tidy ls -> Forall one_line ls ->
    Forall (fun l => find line_marker l = None /\ find open_marker l = None)
           ls ->
    Forall (fun l => is_directive l = false) ls ->
    format_shader (join [LF] ls) = concat ls.
Proof.
  intros ls Ht Ho Hm Hd. unfold format_shader.
  assert (Forall (fun l => l <> [] /\ one_line l) ls) as Hl.
  { rewrite Forall_forall in *. intros l Hin. split; [|now apply Ho].
    now destruct (Ht l Hin). }
  rewrite (splitlines_join _ Hl), format_lines_places.
  rewrite (code_lines_tidy_lines _ Ht Hm), (places_no_directive _ _ Hd).
  cbn [fst snd app]. apply join_flush.
Qed.

Lemma X10_witness :
  format_shader (nl (lit "int") (lit "x;")) = lit "intx;".
Proof.
  apply (X10_code_lines_glued [lit "int"; lit "x;"]).
  - repeat constructor; discriminate.
  - repeat constructor.
  - repeat constructor.
  - repeat constructor.
Defined.

(** X11.  In the output no two consecutive lines are both code: all the
    code between two directives is on one line, and no output line
    holds a line boundary. *)
Theorem X11_one_code_line_between_directives :
  forall s,
    no_adjacent_code (format_lines (splitlines s)) /\
    Forall one_line (format_lines (splitlines s)).
Proof.
  intros s.
  destruct (format_lines_minified _ (splitlines_one_line s)) as (_ & Ho & Hn).
  now split.
Qed.
